(** * XNBNode: the asset passes of [main.js]

    A shallow embedding of the save-side pass ([onPresave]: tilemap header
    transcoding, image extraction), the load-side pass ([onPostload]) and the
    batch driver ([readErrorWrapper], [applyOrRecurse]) of [main.js], followed
    by the properties the specification states about them. *)

From Stdlib Require Import String Ascii List ZArith NArith Bool Lia.
From Stdlib.Strings Require Import Byte.
From Stdlib Require Import DecimalString.
From Stdlib Require DecimalNat DecimalPos DecimalN.
Import ListNotations.
Local Open Scope Z_scope.

(** ** JavaScript strings

    A JavaScript string is a sequence of UTF-16 code units. *)

Definition jsstring := list N.

Definition js (s : string) : jsstring :=
  List.map N_of_ascii (list_ascii_of_string s).

Definition jseqb (a b : jsstring) : bool :=
  if list_eq_dec N.eq_dec a b then true else false.

(** [path + i] with [i] an array index: the decimal rendering of [i]. *)
Definition js_of_nat (i : nat) : jsstring :=
  js (NilZero.string_of_uint (Nat.to_uint i)).

(** Truthiness of a string: only the empty string is falsy. *)
Definition js_truthy (s : jsstring) : bool :=
  match s with [] => false | _ :: _ => true end.

Definition dot : N := 46.
Definition quote : N := 34.

(** [s.split('.')]: always at least one part. *)
Fixpoint split_dot (s : jsstring) : list jsstring :=
  match s with
  | [] => [[]]
  | c :: s' =>
      if N.eqb c dot then [] :: split_dot s'
      else match split_dot s' with
           | [] => [[c]]
           | p :: ps => (c :: p) :: ps
           end
  end.

(** [parts.join('.')]. *)
Fixpoint join_dot (parts : list jsstring) : jsstring :=
  match parts with
  | [] => []
  | [p] => p
  | p :: ps => p ++ dot :: join_dot ps
  end.

(** ** Exceptions

    [ReadError] is [util.ReadError], the one class [main.js] names; the other
    constructors are the runtime's own errors the modelled code can raise. *)

Inductive exn : Type :=
| ReadError
| TypeError
| RangeError
| FsError (code : jsstring).

(** The outcome of a call: [inl v] when it returns [v], [inr e] when it throws
    [e]. *)
Definition result (A : Type) : Type := (A + exn)%type.

Definition is_ReadError (e : exn) : bool :=
  match e with ReadError => true | _ => false end.

(** ** Buffers *)

Definition Buffer := list byte.

Definition byteZ (b : byte) : Z := Z.of_N (Byte.to_N b).

Definition byte_of_Z (z : Z) : byte :=
  match Byte.of_N (Z.to_N (z mod 256)) with
  | Some b => b
  | None => x00
  end.

(** [buf.readInt32LE()]: the first four bytes as a little-endian two's
    complement integer; a shorter buffer is a [RangeError]. *)
Definition readInt32LE (buf : Buffer) : result Z :=
  match buf with
  | b0 :: b1 :: b2 :: b3 :: _ =>
      let u := byteZ b0 + 256 * byteZ b1 + 65536 * byteZ b2
               + 16777216 * byteZ b3 in
      inl (if u <? 2147483648 then u else u - 4294967296)
  | _ => inr RangeError
  end.

Definition int32LE (n : Z) : Buffer :=
  let u := n mod 4294967296 in
  [byte_of_Z u; byte_of_Z (u / 256); byte_of_Z (u / 65536);
   byte_of_Z (u / 16777216)].

(** *** UTF-8 decoding ([buf.toString()])

    The decoder of current Node releases: ill-formed input yields U+FFFD per
    maximal ill-formed subpart; code points above U+FFFF become surrogate
    pairs. *)

Definition REPLACEMENT : N := 65533.

(** An expected continuation: code point so far, continuation bytes still
    needed, and the admissible range of the next byte. *)
Record pending := { cp : N; needed : nat; lower : N; upper : N }.

Definition utf8_lead (b : N) : list N * option pending :=
  (if b <=? 127 then ([b], None)
   else if (194 <=? b) && (b <=? 223) then
     ([], Some {| cp := N.land b 31; needed := 1; lower := 128; upper := 191 |})
   else if (224 <=? b) && (b <=? 239) then
     ([], Some {| cp := N.land b 15; needed := 2;
                  lower := if b =? 224 then 160 else 128;
                  upper := if b =? 237 then 159 else 191 |})
   else if (240 <=? b) && (b <=? 244) then
     ([], Some {| cp := N.land b 7; needed := 3;
                  lower := if b =? 240 then 144 else 128;
                  upper := if b =? 244 then 143 else 191 |})
   else ([REPLACEMENT], None))%N.

Fixpoint utf8_points (st : option pending) (bs : list N) : list N :=
  match bs with
  | [] => match st with None => [] | Some _ => [REPLACEMENT] end
  | b :: bs' =>
      match st with
      | Some p =>
          if ((lower p <=? b) && (b <=? upper p))%N then
            let c := (cp p * 64 + N.land b 63)%N in
            match needed p with
            | S (S r) =>
                utf8_points
                  (Some {| cp := c; needed := S r; lower := 128; upper := 191 |})
                  bs'
            | _ => c :: utf8_points None bs'
            end
          else
            REPLACEMENT :: fst (utf8_lead b) ++ utf8_points (snd (utf8_lead b)) bs'
      | None => fst (utf8_lead b) ++ utf8_points (snd (utf8_lead b)) bs'
      end
  end.

Definition utf16_units (c : N) : list N :=
  (if c <? 65536 then [c]
   else [55296 + (c - 65536) / 1024; 56320 + (c - 65536) mod 1024])%N.

Definition Buffer_toString (buf : Buffer) : jsstring :=
  flat_map utf16_units (utf8_points None (List.map Byte.to_N buf)).

(** [buf.toString('utf8', start, end)] with [0 <= start <= end]. *)
Definition Buffer_toString_range (buf : Buffer) (s e : nat) : jsstring :=
  Buffer_toString (firstn (e - s) (skipn s buf)).

(** ** Byte cursor and byte writer ([reader.js], [writer.js]) *)

Module reader.

(** Modelled from the spec: the cursor of [reader.js], which is not among the
    sources.  Section 4.1: a byte sequence with a read offset that starts at
    zero.  [buffer] holds the bytes not yet consumed, which is what [main.js]
    copies once the tile sheets are done (section 4.6: every remaining
    byte). *)
Record BufferConsumer := { buffer : Buffer; position : Z }.

(** Modelled from the spec: [new reader.BufferConsumer(b)], the offset at
    zero (section 4.1). *)
Definition new (b : Buffer) : BufferConsumer :=
  {| buffer := b; position := 0 |}.

(** Modelled from the spec: [consume(n)] of [reader.js].  Section 4.1: it
    returns the next [n] bytes and advances by [n], and fails with
    [ReadError] if fewer than [n] bytes remain.  A negative [n] is outside
    that contract; the model then returns no byte. *)
Definition consume (c : BufferConsumer) (n : Z)
  : result (Buffer * BufferConsumer) :=
  if Z.of_nat (length (buffer c)) <? n then inr ReadError
  else inl (firstn (Z.to_nat n) (buffer c),
            {| buffer := skipn (Z.to_nat n) (buffer c);
               position := position c + n |}).

End reader.

Module writer.

(** Modelled from the spec: the writer of [writer.js], which is not among the
    sources.  Section 4.2: a growable byte buffer, append-only. *)
Record BufferWriter := { buffer : Buffer }.

(** Modelled from the spec: [new writer.BufferWriter()], initially empty
    (section 4.2). *)
Definition new : BufferWriter := {| buffer := [] |}.

(** Modelled from the spec: [concat(bytes)] of [writer.js] appends a byte
    slice verbatim (section 4.2). *)
Definition concat (w : BufferWriter) (bs : Buffer) : BufferWriter :=
  {| buffer := buffer w ++ bs |}.

(** Modelled from the spec: [writeInt32LE(n)] of [writer.js] appends the
    four-byte little-endian encoding of a signed 32-bit integer
    (section 4.2). *)
Definition writeInt32LE (w : BufferWriter) (n : Z) : BufferWriter :=
  {| buffer := buffer w ++ int32LE n |}.

(** Modelled from the spec: [writeAscii(text)] of [writer.js] appends one
    byte per character, with no terminator and no length prefix
    (section 4.2). *)
Definition writeAscii (w : BufferWriter) (text : jsstring) : BufferWriter :=
  {| buffer := buffer w ++ List.map (fun c => byte_of_Z (Z.of_N c)) text |}.

End writer.

(** ** The tilemap header transcoder (the [map != null] block of [onPresave])

    The block threads three mutable locals: the cursor [buffer], the writer
    [out] and the array [tileSheets]. *)

Record tstate := {
  inp : reader.BufferConsumer;
  out : writer.BufferWriter;
  tileSheets : list jsstring
}.

Definition M (A : Type) : Type := tstate -> result (A * tstate).

Definition ret {A} (a : A) : M A := fun s => inl (a, s).

Definition bind {A B} (m : M A) (k : A -> M B) : M B :=
  fun s => match m s with
           | inr e => inr e
           | inl (a, s') => k a s'
           end.

Definition throw {A} (e : exn) : M A := fun _ => inr e.

Declare Scope tm_scope.
Delimit Scope tm_scope with tm.
Notation "x <- m ;; k" := (bind m (fun x => k))
  (at level 61, m at next level, right associativity) : tm_scope.
Notation "m ;;; k" := (bind m (fun _ => k))
  (at level 61, right associativity) : tm_scope.
Local Open Scope tm_scope.

Definition lift {A} (r : result A) : M A :=
  match r with inl a => ret a | inr e => throw e end.

(** [buffer.consume(n)] *)
Definition consume (n : Z) : M Buffer :=
  fun s => match reader.consume (inp s) n with
           | inr e => inr e
           | inl (bs, c) =>
               inl (bs, {| inp := c; out := out s; tileSheets := tileSheets s |})
           end.

Definition with_out (f : writer.BufferWriter -> writer.BufferWriter)
  : M unit :=
  fun s => inl (tt, {| inp := inp s; out := f (out s);
                       tileSheets := tileSheets s |}).

(** [out.concat(bs)], [out.writeInt32LE(n)], [out.writeAscii(text)] *)
Definition out_concat (bs : Buffer) : M unit :=
  with_out (fun w => writer.concat w bs).
Definition out_writeInt32LE (n : Z) : M unit :=
  with_out (fun w => writer.writeInt32LE w n).
Definition out_writeAscii (text : jsstring) : M unit :=
  with_out (fun w => writer.writeAscii w text).

(** [tileSheets.push(name)] *)
Definition push_tileSheet (name : jsstring) : M unit :=
  fun s => inl (tt, {| inp := inp s; out := out s;
                       tileSheets := tileSheets s ++ [name] |}).

(** [while (n-- > 0) body]: [body] runs [n] times, not at all for [n <= 0]. *)
Fixpoint repeatM (k : nat) (body : M unit) : M unit :=
  match k with
  | O => ret tt
  | S k' => body ;;; repeatM k' body
  end.

Definition while_countdown (n : Z) (body : M unit) : M unit :=
  repeatM (Z.to_nat n) body.

Definition skipString : M unit :=
  len <- consume 4 ;;
  skipBytes <- lift (readInt32LE len) ;;
  out_writeInt32LE skipBytes ;;;
  bs <- consume skipBytes ;;
  out_concat bs.

(** One turn of the loop of [skipProperties].  The [switch] has no [default]:
    a type byte other than 0..3 falls out of it with nothing more copied. *)
Definition skipProperty : M unit :=
  skipString ;;;
  propertyType <- consume 1 ;;
  out_concat propertyType ;;;
  match List.map Byte.to_N propertyType with
  | 0%N :: _ => bs <- consume 1 ;; out_concat bs
  | 1%N :: _ => bs <- consume 4 ;; out_concat bs
  | 2%N :: _ => bs <- consume 4 ;; out_concat bs
  | 3%N :: _ => skipString
  | _ => ret tt
  end.

Definition skipProperties : M unit :=
  cnt <- consume 4 ;;
  numberProperties <- lift (readInt32LE cnt) ;;
  out_writeInt32LE numberProperties ;;;
  while_countdown numberProperties skipProperty.

(** One turn of the tile sheet loop. *)
Definition tileSheet : M unit :=
  skipString ;;;
  skipString ;;;
  len <- consume 4 ;;
  strBytes <- lift (readInt32LE len) ;;
  imgSource <- consume strBytes ;;
  let imgSource := Buffer_toString imgSource ++ js ".png" in
  push_tileSheet imgSource ;;;
  out_writeInt32LE (Z.of_nat (length imgSource)) ;;;
  out_writeAscii imgSource ;;;
  bs <- consume (4 * 2 * 4) ;;
  out_concat bs ;;;
  skipProperties.

Definition transcodeM : M unit :=
  header <- consume 6 ;;
  out_concat header ;;;
  skipString ;;;
  skipString ;;;
  skipProperties ;;;
  cnt <- consume 4 ;;
  numberTileSheets <- lift (readInt32LE cnt) ;;
  out_writeInt32LE numberTileSheets ;;;
  while_countdown numberTileSheets tileSheet ;;;
  fun s => out_concat (reader.buffer (inp s)) s.

(** The block as a function of the segment: the bytes of [out.buffer] and the
    array [tileSheets]. *)
Definition transcode (map : Buffer) : result (Buffer * list jsstring) :=
  match transcodeM {| inp := reader.new map; out := writer.new;
                      tileSheets := [] |} with
  | inr e => inr e
  | inl (_, s) => inl (writer.buffer (out s), tileSheets s)
  end.

(** Bytes of an ASCII literal. *)
Definition ascii_bytes (s : string) : Buffer := list_byte_of_string s.

(** ** The value tree

    What [converter.XnbToObject] and [typeyaml.parse] hand to the passes:
    primitives, Buffers, arrays and plain objects.  The fields of an object are
    listed in enumeration order ([for ... in]); keys are unique.  Numbers are
    never computed with by the passes and are carried as integers. *)

#[local] Unset Elimination Schemes.
Inductive value : Type :=
| VUndefined
| VNull
| VBool (b : bool)
| VNum (n : Z)
| VStr (s : jsstring)
| VBuf (b : Buffer)
| VArr (elems : list value)
| VObj (fields : list (jsstring * value)).
#[local] Set Elimination Schemes.

Definition fields_t := list (jsstring * value).

Fixpoint lookup (k : jsstring) (fs : fields_t) : option value :=
  match fs with
  | [] => None
  | (k', v) :: fs' => if jseqb k k' then Some v else lookup k fs'
  end.

Definition has_key (k : jsstring) (fs : fields_t) : bool :=
  match lookup k fs with Some _ => true | None => false end.

(** [delete o[k]] on the field list of [o]. *)
Definition remove (k : jsstring) (fs : fields_t) : fields_t :=
  filter (fun kv => negb (jseqb k (fst kv))) fs.

(** [o[k] = v] on the field list of [o]: an existing key keeps its place, a
    new key goes last. *)
Fixpoint put (k : jsstring) (v : value) (fs : fields_t) : fields_t :=
  match fs with
  | [] => [(k, v)]
  | (k', v') :: fs' =>
      if jseqb k k' then (k, v) :: fs' else (k', v') :: put k v fs'
  end.

Definition js_of_N (n : N) : jsstring :=
  js (NilZero.string_of_uint (N.to_uint n)).

Definition js_of_Z (n : Z) : jsstring :=
  js (NilZero.string_of_int (Z.to_int n)).

(** A key that is an array index: the canonical decimal rendering of a
    number ("0", "17"; not "017", not "+1"). *)
Definition digit (c : N) : option N :=
  (if (48 <=? c) && (c <=? 57) then Some (c - 48) else None)%N.

Fixpoint digits (acc : N) (s : jsstring) : option N :=
  match s with
  | [] => Some acc
  | c :: s' => match digit c with
               | Some d => digits (acc * 10 + d)%N s'
               | None => None
               end
  end.

Definition array_index (k : jsstring) : option N :=
  match k with
  | [] => None
  | _ :: _ => match digits 0 k with
              | Some n => if jseqb (js_of_N n) k then Some n else None
              | None => None
              end
  end.

Definition nth_N {A} (l : list A) (n : N) : option A :=
  if (n <? N.of_nat (length l))%N then nth_error l (N.to_nat n) else None.

Definition or_undefined (o : option value) : value :=
  match o with Some v => v | None => VUndefined end.

(** [o[k]] (and [o.k]).  Own properties only: the fields of an object, the
    elements and [length] of an array, a string or a Buffer.  Members
    inherited from the built-in prototypes ([constructor], [toString], ...)
    are values outside the tree: here any other key reads as [undefined],
    which is what the code does for the keys it names itself ([data],
    [width], [height], [type], [path]).  For the keys of a recorded path see
    [leaves_tree].  Reading a property of [undefined] or [null] throws. *)
Definition get (o : value) (k : jsstring) : result value :=
  match o with
  | VUndefined | VNull => inr TypeError
  | VBool _ | VNum _ => inl VUndefined
  | VStr s =>
      if jseqb k (js "length") then inl (VNum (Z.of_nat (length s)))
      else inl (match array_index k with
                | Some n => match nth_N s n with
                            | Some c => VStr [c]
                            | None => VUndefined
                            end
                | None => VUndefined
                end)
  | VBuf b =>
      if jseqb k (js "length") then inl (VNum (Z.of_nat (length b)))
      else inl (match array_index k with
                | Some n => match nth_N b n with
                            | Some c => VNum (byteZ c)
                            | None => VUndefined
                            end
                | None => VUndefined
                end)
  | VArr l =>
      if jseqb k (js "length") then inl (VNum (Z.of_nat (length l)))
      else inl (match array_index k with
                | Some n => or_undefined (nth_N l n)
                | None => VUndefined
                end)
  | VObj fs => inl (or_undefined (lookup k fs))
  end.

(** [delete o.k] for the keys [main.js] deletes ([data], [width], [height]):
    none of them is an own property of a primitive, an array or a Buffer, on
    which the deletion therefore does nothing.  The file is in strict mode;
    the base being [undefined] or [null] throws. *)
Definition delete (o : value) (k : jsstring) : result value :=
  match o with
  | VUndefined | VNull => inr TypeError
  | VObj fs => inl (VObj (remove k fs))
  | _ => inl o
  end.

(** [o.k = v] for a key that is neither an index nor [length].  In strict
    mode a primitive base throws.  An array or a Buffer accepts the property,
    which is not part of the document data the model carries: the value is
    returned as it was. *)
Definition set (o : value) (k : jsstring) (v : value) : result value :=
  match o with
  | VUndefined | VNull | VBool _ | VNum _ | VStr _ => inr TypeError
  | VBuf _ | VArr _ => inl o
  | VObj fs => inl (VObj (put k v fs))
  end.

(** [!v] is false *)
Definition truthy (v : value) : bool :=
  match v with
  | VUndefined | VNull => false
  | VBool b => b
  | VNum n => negb (n =? 0)
  | VStr s => js_truthy s
  | VBuf _ | VArr _ | VObj _ => true
  end.

(** [String(v)] as string concatenation and [Array.prototype.join] compute
    it.  A plain object prints as [[object Object]] unless it shadows
    [toString] with a field, which no function of the tree can make callable. *)
Fixpoint ToString (v : value) : result jsstring :=
  match v with
  | VUndefined => inl (js "undefined")
  | VNull => inl (js "null")
  | VBool true => inl (js "true")
  | VBool false => inl (js "false")
  | VNum n => inl (js_of_Z n)
  | VStr s => inl s
  | VBuf b => inl (Buffer_toString b)
  | VArr l =>
      (fix join (l : list value) : result jsstring :=
         match l with
         | [] => inl []
         | x :: l' =>
             let sx := match x with
                       | VUndefined | VNull => inl []
                       | _ => ToString x
                       end in
             match sx, l' with
             | inr e, _ => inr e
             | inl s, [] => inl s
             | inl s, _ :: _ =>
                 match join l' with
                 | inr e => inr e
                 | inl r => inl (s ++ 44%N :: r)
                 end
             end
         end) l
  | VObj fs =>
      if has_key (js "toString") fs then inr TypeError
      else inl (js "[object Object]")
  end.

(** [v == s] for a string [s] that is not a numeric literal (so that a number
    or a boolean never equals it): strings compare as such, objects through
    their primitive value. *)
Definition loose_eq_string (v : value) (s : jsstring) : result bool :=
  match v with
  | VUndefined | VNull | VBool _ | VNum _ => inl false
  | VStr t => inl (jseqb t s)
  | VBuf _ | VArr _ | VObj _ =>
      match ToString v with
      | inr e => inr e
      | inl t => inl (jseqb t s)
      end
  end.

(** Modelled from the spec: [isTypeObject] of [typeyaml.js], which is not
    among the sources.  Sections 3 and 4.3: a node is tagged iff it is a
    field mapping whose key set is exactly the tag key and the payload key;
    [main.js] reads these as [type] and [data]. *)
Definition isTypeObject (o : value) : bool :=
  match o with
  | VObj fs =>
      (length fs =? 2)%nat && has_key (js "type") fs && has_key (js "data") fs
  | _ => false
  end.

(** An object after its field [k] was mutated into [v] in place. *)
Definition update_field (o : value) (k : jsstring) (v : value) : value :=
  match o with
  | VObj fs => if has_key k fs then VObj (put k v fs) else o
  | _ => o
  end.

Local Close Scope tm_scope.
Declare Scope res_scope.
Notation "x <- m ;; k" :=
  (match m with inr e => inr e | inl x => k end)
  (at level 61, m at next level, right associativity) : res_scope.
Notation "' pat <- m ;; k" :=
  (match m with inr e => inr e | inl pat => k end)
  (at level 61, pat pattern, m at next level, right associativity) : res_scope.
Local Open Scope res_scope.

(** ** [extractMap] *)

(** [data.toString('utf8', 0, 6)]: the method each kind of value answers
    with.  A number takes the first argument for a radix. *)
Definition toString_utf8_0_6 (data : value) : result jsstring :=
  match data with
  | VUndefined | VNull => inr TypeError
  | VNum _ => inr RangeError
  | VBuf b => inl (Buffer_toString_range b 0 6)
  | VObj fs =>
      if has_key (js "toString") fs then inr TypeError
      else inl (js "[object Object]")
  | _ => ToString data
  end.

(** Returns the segment (or [null]) and [object] as the call leaves it. *)
Definition extractMap (object : value) : result (value * value) :=
  payload <- get object (js "data") ;;
  data <- get payload (js "data") ;;
  str <- toString_utf8_0_6 data ;;
  if jseqb str (js "tBIN10") then
    payload' <- delete payload (js "data") ;;
    inl (data, update_field object (js "data") payload')
  else inl (VNull, object).

(** ** [extractImages] *)

Definition placeholder (data width height : value) (path : jsstring) : value :=
  VObj [(js "data", data); (js "width", width); (js "height", height);
        (js "path", VStr path)].

(** The [Texture2D] branch: the placeholder and the node without the three
    fields. *)
Definition extractTexture (object : value) (path : jsstring)
  : result (list value * value) :=
  payload <- get object (js "data") ;;
  data <- get payload (js "data") ;;
  width <- get payload (js "width") ;;
  height <- get payload (js "height") ;;
  p1 <- delete payload (js "data") ;;
  p2 <- delete p1 (js "width") ;;
  p3 <- delete p2 (js "height") ;;
  inl ([placeholder data width height path],
       update_field object (js "data") p3).

(** The loop over the elements of an array: [rec] is called on element [i]
    with [path + i]. *)
Definition extractElems (rec : value -> jsstring -> result (list value * value))
                        (path : jsstring)
  : list value -> nat -> result (list value * list value) :=
  fix loop (l : list value) (i : nat) :=
    match l with
    | [] => inl ([], [])
    | x :: l' =>
        ' (imgs, x') <- rec x (path ++ js_of_nat i) ;;
        ' (imgs', l'') <- loop l' (S i) ;;
        inl (imgs ++ imgs', x' :: l'')
    end.

(** The loop over the fields of an object: [rec] is called on the value of
    each key [visit] gives a path for. *)
Definition extractFields (rec : value -> jsstring -> result (list value * value))
                         (visit : jsstring -> option jsstring)
  : fields_t -> result (list value * fields_t) :=
  fix loop (fs : fields_t) :=
    match fs with
    | [] => inl ([], [])
    | (key, x) :: fs' =>
        ' (imgs, x') <- match visit key with
                        | Some p => rec x p
                        | None => inl ([], x)
                        end ;;
        ' (imgs', fs'') <- loop fs' ;;
        inl (imgs ++ imgs', (key, x') :: fs'')
    end.

(** [if (path) path += '.'] *)
Definition dotted (path : jsstring) : jsstring :=
  if js_truthy path then path ++ js "." else path.

(** Returns the array [images] and [object] as the call leaves it.  In a
    tagged object the one field visited is [data], with the path unchanged;
    in any other object every key is, in enumeration order.  The stack of
    the engine, which bounds the depth of the recursion with a [RangeError],
    is not modelled: the function is the traversal on a stack deep enough
    for the tree. *)
Fixpoint extractImages (object : value) (path : jsstring) {struct object}
  : result (list value * value) :=
  match object with
  | VUndefined | VNull | VBool _ | VNum _ | VStr _ => inl ([], object)
  | VBuf _ =>
      (* [for (key in object)] visits the bytes, which are numbers *)
      inl ([], object)
  | VArr elems =>
      ' (images, elems') <- extractElems extractImages (dotted path) elems O ;;
      inl (images, VArr elems')
  | VObj fields =>
      if isTypeObject object then
        isTexture <- loose_eq_string (or_undefined (lookup (js "type") fields))
                                     (js "Texture2D") ;;
        if isTexture then extractTexture object path
        else
          ' (images, fields') <-
            extractFields extractImages
              (fun key => if jseqb key (js "data") then Some path else None)
              fields ;;
          inl (images, VObj fields')
      else
        ' (images, fields') <-
          extractFields extractImages
            (fun key => Some (dotted path ++ key)) fields ;;
        inl (images, VObj fields')
  end.

(** ** [objectWalk]

    The function returns a reference into the tree, through which
    [onPostload] then assigns: the model returns the node ([target]) together
    with the place it occupies ([plug v] is the tree with [v] at that place).
    A character of a string, a byte of a Buffer and a [length] are copies:
    they occupy no place.

    The walk is the walk through the tree: it follows what the nodes own
    (a read that goes to a prototype leaves the tree, see [leaves_tree]).
    The fuel stands for the room the stack has for nested calls; running out
    of it is the [RangeError] of the engine. *)

Record ref := { target : value; plug : value -> value }.

Fixpoint set_nth (l : list value) (n : nat) (v : value) : list value :=
  match l, n with
  | [], _ => []
  | _ :: l', O => v :: l'
  | x :: l', S n' => x :: set_nth l' n' v
  end.

(** [o] after the node [o[k]] refers to was mutated into [v]. *)
Definition update_child (o : value) (k : jsstring) (v : value) : value :=
  match o with
  | VObj _ => update_field o k v
  | VArr l =>
      match array_index k with
      | Some n => if (n <? N.of_nat (length l))%N
                  then VArr (set_nth l (N.to_nat n) v) else o
      | None => o
      end
  | _ => o
  end.

Fixpoint objectWalk_fuel (fuel : nat) (object : value) (path : jsstring)
  : option (result ref) :=
  match fuel with
  | O => None
  | S fuel' =>
      if isTypeObject object then
        match get object (js "data") with
        | inr e => Some (inr e)
        | inl child =>
            match objectWalk_fuel fuel' child path with
            | Some (inl r) =>
                Some (inl {| target := target r;
                             plug := fun v =>
                               update_child object (js "data") (plug r v) |})
            | other => other
            end
        end
      else if negb (js_truthy path) then
        Some (inl {| target := object; plug := fun v => v |})
      else
        let parts := split_dot path in
        match get object (hd [] parts) with
        | inr e => Some (inr e)
        | inl child =>
            match objectWalk_fuel fuel' child (join_dot (tl parts)) with
            | Some (inl r) =>
                Some (inl {| target := target r;
                             plug := fun v =>
                               update_child object (hd [] parts) (plug r v) |})
            | other => other
            end
        end
  end.

(** Nesting depth of a value: what bounds the unwrapping of tags. *)
Fixpoint height (v : value) : nat :=
  match v with
  | VArr l => S (fold_right (fun x m => Nat.max (height x) m) O l)
  | VObj fs => S (fold_right (fun kv m => Nat.max (height (snd kv)) m) O fs)
  | _ => O
  end.

(** Every call of [objectWalk] goes down one level of the tree or shortens
    the path, so that this much fuel is never used up
    ([objectWalk_fuel_enough]). *)
Definition objectWalk_ref (object : value) (path : jsstring) : result ref :=
  match objectWalk_fuel (S (height object + length path)) object path with
  | Some r => r
  | None => inr RangeError
  end.

Definition objectWalk (object : value) (path : jsstring) : result value :=
  r <- objectWalk_ref object path ;; inl (target r).

(** ** Reads that leave the tree

    [has_own o k]: the read [o[k]] is answered by the tree, by a field of an
    object, an element or the [length] of an array, a string or a Buffer. *)
Definition has_own (o : value) (k : jsstring) : bool :=
  let indexed (n : nat) :=
    jseqb k (js "length")
    || match array_index k with
       | Some i => (i <? N.of_nat n)%N
       | None => false
       end in
  match o with
  | VObj fs => has_key k fs
  | VArr l => indexed (length l)
  | VStr s => indexed (length s)
  | VBuf b => indexed (length b)
  | _ => false
  end.

(** The walk of [objectWalk] reads, under a segment of the path, a member
    that the node does not own and inherits from a prototype
    ([inherited o k]): the walk goes on in a value that is no part of the
    tree. *)
Fixpoint leaves_tree_fuel (inherited : value -> jsstring -> bool)
                          (fuel : nat) (object : value) (path : jsstring)
  : bool :=
  match fuel with
  | O => false
  | S fuel' =>
      if isTypeObject object then
        match get object (js "data") with
        | inr _ => false
        | inl child => leaves_tree_fuel inherited fuel' child path
        end
      else if negb (js_truthy path) then false
      else
        let parts := split_dot path in
        match get object (hd [] parts) with
        | inr _ => false
        | inl child =>
            if negb (has_own object (hd [] parts))
               && inherited object (hd [] parts)
            then true
            else leaves_tree_fuel inherited fuel' child (join_dot (tl parts))
        end
  end.

Definition leaves_tree (inherited : value -> jsstring -> bool)
                       (object : value) (path : jsstring) : bool :=
  leaves_tree_fuel inherited (S (height object + length path)) object path.

(** ** The platform

    What [main.js] takes from Node and from the packages it requires: the
    [path] module, string methods, the file system, the PNG codec. *)

Record png := { png_width : value; png_height : value; png_data : value }.

Record platform := {
  path_extname : jsstring -> jsstring;
  path_dirname : jsstring -> jsstring;
  path_basename : jsstring -> jsstring -> jsstring;
  path_join : jsstring -> jsstring -> jsstring;
  (** [PNG.sync.write] of a [PNG] built from a width, a height and the data *)
  PNG_sync_write : png -> result Buffer;
  PNG_sync_read : Buffer -> result png;
  fs_readFileSync : jsstring -> result Buffer;
  (** the engine: [inherited o k], the value [o] inherits a member named [k]
      from its prototypes; [beyond_tree content path png], what the three
      assignments of [onPostload] do, and leave of [content], when the walk
      along [path] has left the tree *)
  inherited : value -> jsstring -> bool;
  beyond_tree : value -> jsstring -> png -> result value
}.

(** ** The document *)

Record Document := {
  content : value;
  (** [None]: the field is absent; otherwise the elements of the array *)
  extractedImages : option (list value);
  (** the other fields, which the passes never touch *)
  other : fields_t
}.

Definition set_content (d : Document) (c : value) : Document :=
  {| content := c; extractedImages := extractedImages d; other := other d |}.

Definition set_extractedImages (d : Document) (l : list value) : Document :=
  {| content := content d; extractedImages := Some l; other := other d |}.

(** A call of [fs.writeFileSync]: the name of the file and its bytes.  The
    passes write into the directory [mkdirp] has made; the call is taken to
    succeed. *)
Definition file_write := (jsstring * Buffer)%type.

Section Passes.

Variable P : platform.

(** [contentPath] takes part in a string concatenation. *)
Definition getImageName (baseFile : jsstring) (contentPath : value)
  : result jsstring :=
  let ext := path_extname P baseFile in
  p <- ToString contentPath ;;
  inl (path_join P (path_dirname P baseFile)
         (path_basename P baseFile ext ++ js "." ++ p ++ js ".png")).

Definition tbinName (outputFile : jsstring) : jsstring :=
  let ext := path_extname P outputFile in
  path_join P (path_dirname P outputFile)
    (path_basename P outputFile ext ++ js ".tbin").

(** The [map != null] block.  [reader.BufferConsumer] is specified over
    byte sequences only; a segment that is not a Buffer (a string or an
    array that prints as the magic) has no [readInt32LE] to offer. *)
Definition transcodeMap (outputFile : jsstring) (map : value) (content : value)
  : list file_write * result value :=
  match map with
  | VBuf b =>
      match transcode b with
      | inr e => ([], inr e)
      | inl (bytes, names) =>
          ([(tbinName outputFile, bytes)],
           payload <- get content (js "data") ;;
           payload' <- set payload (js "tileSheets")
                           (VArr (List.map VStr names)) ;;
           inl (update_field content (js "data") payload'))
      end
  | _ => ([], inr TypeError)
  end.

(** The loop over [images]: each placeholder is written out as a PNG and
    stripped; [images] holds the stripped placeholders afterwards. *)
Fixpoint writeImages (outputFile : jsstring) (images : list value)
  : list file_write * result (list value) :=
  match images with
  | [] => ([], inl [])
  | image :: rest =>
      let step :=
        path <- get image (js "path") ;;
        filename <- getImageName outputFile path ;;
        width <- get image (js "width") ;;
        height <- get image (js "height") ;;
        data <- get image (js "data") ;;
        buffer <- PNG_sync_write P {| png_width := width;
                                      png_height := height;
                                      png_data := data |} ;;
        i1 <- delete image (js "data") ;;
        i2 <- delete i1 (js "width") ;;
        i3 <- delete i2 (js "height") ;;
        inl ((filename, buffer), i3) in
      match step with
      | inr e => ([], inr e)
      | inl (w, image') =>
          let (ws, r) := writeImages outputFile rest in
          (w :: ws, images' <- r ;; inl (image' :: images'))
      end
  end.

(** The first part of [onPresave]: [extractMap] and, for a segment, the
    block above.  Returns the files written and [data.content] as the part
    leaves it. *)
Definition presaveMap (outputFile : jsstring) (content : value)
  : list file_write * result value :=
  match extractMap content with
  | inr e => ([], inr e)
  | inl (map, content1) =>
      match map with
      | VNull | VUndefined => ([], inl content1)
      | _ => transcodeMap outputFile map content1
      end
  end.

(** Returns the files written, in order, and the outcome of the call. *)
Definition onPresave (outputFile : jsstring) (data : Document)
  : list file_write * result Document :=
  let (w1, r1) := presaveMap outputFile (content data) in
  match r1 with
  | inr e => (w1, inr e)
  | inl content2 =>
      match extractImages content2 [] with
      | inr e => (w1, inr e)
      | inl (images, content3) =>
          let (w2, r2) := writeImages outputFile images in
          (w1 ++ w2,
           images' <- r2 ;;
           let data' := set_content data content3 in
           inl (if (0 <? length images')%nat
                then set_extractedImages data' images'
                else data'))
      end
  end.

(** [path] as [objectWalk] uses it: a falsy path ends the walk, a string is
    split, anything else has no [split]. *)
Definition path_arg (path : value) : result jsstring :=
  match path with
  | VStr s => inl s
  | _ => if truthy path then inr TypeError else inl []
  end.

(** One turn of the loop of [onPostload], on [data.content].  A walk that
    reads an inherited member ends outside the tree, where the engine
    decides what the assignments do. *)
Definition reinject (inputFile : jsstring) (image : value) (content : value)
  : result value :=
  path <- get image (js "path") ;;
  filename <- getImageName inputFile path ;;
  pngBuffer <- fs_readFileSync P filename ;;
  png <- PNG_sync_read P pngBuffer ;;
  p <- path_arg path ;;
  if leaves_tree (inherited P) content p then beyond_tree P content p png
  else
    container <- objectWalk_ref content p ;;
    c1 <- set (target container) (js "data") (png_data png) ;;
    c2 <- set c1 (js "width") (png_width png) ;;
    c3 <- set c2 (js "height") (png_height png) ;;
    inl (plug container c3).

Fixpoint reinjectAll (inputFile : jsstring) (images : list value)
                     (content : value) : result value :=
  match images with
  | [] => inl content
  | image :: rest =>
      content' <- reinject inputFile image content ;;
      reinjectAll inputFile rest content'
  end.


Definition onPostload (inputFile : jsstring) (data : Document)
  : result Document :=
  match extractedImages data with
  | None => inl data
  | Some images =>
      content' <- reinjectAll inputFile images (content data) ;;
      inl (set_content data content')
  end.

End Passes.

(** ** The batch driver *)

Record stats := { isFile : bool; isDirectory : bool }.

Section Driver.

(** The state of everything outside the program: files, console. *)
Variable world : Type.

Variable P : platform.

Record host := {
  fs_statSync : jsstring -> world -> result stats;
  (** the [file] events of [walk.walk(input)], in order: [root] and
      [fileStats.name] of each *)
  walk_files : jsstring -> world -> list (jsstring * jsstring);
  console_log : jsstring -> world -> world;
  String_toLowerCase : jsstring -> jsstring;
  (** [s.replace(pattern, replacement)] *)
  String_replace : jsstring -> jsstring -> jsstring -> jsstring
}.

Variable H : host.

(** A conversion job ([extractXnb], [packXnb]): called on an input and an
    output file, it changes the world and returns or throws. *)
Definition job := jsstring -> jsstring -> world -> world * result unit.

Definition readErrorWrapper (fn : job) : job :=
  fun input output w =>
    match fn input output w with
    | (w', inl _) => (w', inl tt)
    | (w', inr e) => if is_ReadError e then (w', inl tt) else (w', inr e)
    end.

(** The handler of the walker's [file] event, up to its call of [next]. *)
Definition onFile (quiet : bool) (fn : job) (input output : jsstring)
                  (root name : jsstring) (w : world) : world * result unit :=
  let ext := String_toLowerCase H (path_extname P name) in
  if negb (jseqb ext (js ".xnb")) && negb (jseqb ext (js ".yaml"))
  then (w, inl tt)
  else
    let targetDir := String_replace H root input output in
    let sourceFile := path_join P root name in
    let w1 := if quiet then w else console_log H sourceFile w in
    let targetExt := if jseqb ext (js ".xnb") then js ".yaml" else js ".xnb" in
    let targetFile :=
      path_join P targetDir (path_basename P name ext ++ targetExt) in
    fn sourceFile targetFile w1.

(** The walk: the next [file] event is delivered when the handler has
    called [next]; an exception thrown by the handler ends the run. *)
Fixpoint walkFiles (quiet : bool) (fn : job) (input output : jsstring)
                   (files : list (jsstring * jsstring)) (w : world)
  : world * result unit :=
  match files with
  | [] => (w, inl tt)
  | (root, name) :: rest =>
      match onFile quiet fn input output root name w with
      | (w', inr e) => (w', inr e)
      | (w', inl _) => walkFiles quiet fn input output rest w'
      end
  end.

Definition applyOrRecurse (quiet : bool) (fn : job) (input output : jsstring)
                          (w : world) : world * result unit :=
  let fn := readErrorWrapper fn in
  match fs_statSync H input w with
  | inr (FsError code) =>
      if jseqb code (js "ENOENT")
      then (console_log H (js "The file or directory " ++ quote :: input
                             ++ quote :: js " was not found.") w, inl tt)
      else (w, inr (FsError code))
  | inr e => (w, inr e)
  | inl st =>
      if isFile st then fn input output w
      else if isDirectory st
           then walkFiles quiet fn input output (walk_files H input w) w
           else (w, inl tt)
  end.

End Driver.

Arguments fs_statSync {world}.
Arguments walk_files {world}.
Arguments console_log {world}.
Arguments String_toLowerCase {world}.
Arguments String_replace {world}.
Arguments readErrorWrapper {world}.
Arguments onFile {world}.
Arguments walkFiles {world}.
Arguments applyOrRecurse {world}.

(** ** Sample data *)

Definition magic : Buffer := ascii_bytes "tBIN10".

(** A length-prefixed string of a segment. *)
Definition lpstring (bs : Buffer) : Buffer :=
  int32LE (Z.of_nat (length bs)) ++ bs.

(** The minimal segment: empty id and description, no map property, one tile
    sheet [t] with an empty description and the image source [tiles], the 32
    bytes [sizes], no tile sheet property, then [trailing]. *)
Definition minimal_segment (sizes trailing : Buffer) : Buffer :=
  magic ++ lpstring [] ++ lpstring [] ++ int32LE 0
  ++ int32LE 1
  ++ lpstring (ascii_bytes "t") ++ lpstring []
  ++ lpstring (ascii_bytes "tiles") ++ sizes ++ int32LE 0
  ++ trailing.

Definition minimal_output (sizes trailing : Buffer) : Buffer :=
  magic ++ lpstring [] ++ lpstring [] ++ int32LE 0
  ++ int32LE 1
  ++ lpstring (ascii_bytes "t") ++ lpstring []
  ++ int32LE 9 ++ ascii_bytes "tiles.png" ++ sizes ++ int32LE 0
  ++ trailing.

(** A segment with two map properties, the first of type 5 and with no
    value, the second a boolean; no tile sheet. *)
Definition unknown_tag_segment : Buffer :=
  magic ++ lpstring [] ++ lpstring []
  ++ int32LE 2
  ++ lpstring (ascii_bytes "a") ++ [x05]
  ++ lpstring (ascii_bytes "b") ++ [x00; x01]
  ++ int32LE 0
  ++ [xaa; xbb].

(** [payload] once the [Texture2D] branch has deleted its three fields. *)
Definition strip3 (payload : value) : value :=
  match payload with
  | VObj fs =>
      VObj (remove (js "height") (remove (js "width") (remove (js "data") fs)))
  | _ => payload
  end.

Definition tagged (tag : jsstring) (payload : value) : value :=
  VObj [(js "type", VStr tag); (js "data", payload)].

Definition Texture2D (payload : fields_t) : value :=
  tagged (js "Texture2D") (VObj payload).

(** The eight bytes of two RGBA pixels. *)
Definition two_pixels : Buffer := [xff; x00; x00; xff; x00; xff; x00; xff].

Definition pixel_fields : fields_t :=
  [(js "data", VBuf two_pixels); (js "width", VNum 2); (js "height", VNum 1)].

(** [{type: "T", data: {items: [node]}}] *)
Definition in_items (node : value) : value :=
  tagged (js "T") (VObj [(js "items", VArr [node])]).

(** A texture whose payload holds another texture next to its own pixels. *)
Definition nested_texture : value :=
  Texture2D ((js "inner", Texture2D pixel_fields) :: pixel_fields).

(** A placeholder as [onPresave] leaves it in [extractedImages]. *)
Definition stripped (path : jsstring) : value :=
  VObj [(js "path", VStr path)].


(** A stand-in for the platform, for the examples: fixed directory and base
    name, a codec that stores width and height in two bytes before the
    pixels, a file system holding [files], and an engine whose values
    inherit the members of [Object.prototype], assignments to which leave
    the tree as it is. *)
Definition sample_platform (files : list (jsstring * Buffer)) : platform :=
  {| path_extname := fun _ => js ".yaml";
     path_dirname := fun _ => js "out";
     path_basename := fun _ _ => js "map";
     path_join := fun dir name => dir ++ js "/" ++ name;
     PNG_sync_write := fun p =>
       match png_width p, png_height p, png_data p with
       | VNum w, VNum h, VBuf d => inl (byte_of_Z w :: byte_of_Z h :: d)
       | _, _, _ => inr TypeError
       end;
     PNG_sync_read := fun file =>
       match file with
       | w :: h :: d =>
           inl {| png_width := VNum (byteZ w); png_height := VNum (byteZ h);
                  png_data := VBuf d |}
       | _ => inr RangeError
       end;
     fs_readFileSync := fun name =>
       match List.find (fun f => jseqb name (fst f)) files with
       | Some f => inl (snd f)
       | None => inr (FsError (js "ENOENT"))
       end;
     inherited := fun _ k =>
       existsb (jseqb k)
         [js "constructor"; js "__proto__"; js "hasOwnProperty";
          js "isPrototypeOf"; js "propertyIsEnumerable"; js "toLocaleString";
          js "toString"; js "valueOf"];
     beyond_tree := fun content _ _ => inl content |}.

Definition two_pixels_file : Buffer := x02 :: x01 :: two_pixels.

(** A texture file as decoded: the content is the texture itself. *)
Definition texture_document : Document :=
  {| content := Texture2D ((js "format", VNum 0) :: pixel_fields);
     extractedImages := None;
     other := [] |}.

(** The walk along [path] ends on no node: it comes to [undefined], or
    throws before its end because it came to [undefined] or [null] earlier. *)
Definition unresolved (object : value) (path : jsstring) : Prop :=
  objectWalk object path = inl VUndefined
  \/ objectWalk object path = inr TypeError.

Definition is_placeholder (image : value) : Prop :=
  exists data width height path, image = placeholder data width height path.

Definition is_stripped (image : value) : Prop :=
  exists path, image = stripped path.

(** Induction on values, through the lists they nest in. *)
Section value_induction.

Variable Q : value -> Prop.
Hypothesis Q_leaf : forall v, height v = O -> Q v.
Hypothesis Q_arr : forall l, Forall Q l -> Q (VArr l).
Hypothesis Q_obj : forall fs, Forall (fun kv => Q (snd kv)) fs -> Q (VObj fs).

Fixpoint value_ind' (v : value) : Q v :=
  match v with
  | VArr l =>
      Q_arr l ((fix all (l : list value) : Forall Q l :=
                  match l with
                  | [] => Forall_nil Q
                  | x :: l' => Forall_cons x (value_ind' x) (all l')
                  end) l)
  | VObj fs =>
      Q_obj fs ((fix all (fs : fields_t) : Forall (fun kv => Q (snd kv)) fs :=
                   match fs with
                   | [] => Forall_nil _
                   | kv :: fs' => Forall_cons kv (value_ind' (snd kv)) (all fs')
                   end) fs)
  | VUndefined => Q_leaf VUndefined eq_refl
  | VNull => Q_leaf VNull eq_refl
  | VBool b => Q_leaf (VBool b) eq_refl
  | VNum n => Q_leaf (VNum n) eq_refl
  | VStr s => Q_leaf (VStr s) eq_refl
  | VBuf b => Q_leaf (VBuf b) eq_refl
  end.

End value_induction.

(** A stand-in for the host, for the examples.  The world is the list of
    the files converted so far; the walker finds [in/a.xnb] and [in/b.xnb]. *)
Definition sample_host : host (list jsstring) :=
  {| fs_statSync := fun _ _ => inl {| isFile := false; isDirectory := true |};
     walk_files := fun _ _ => [(js "in", js "a.xnb"); (js "in", js "b.xnb")];
     console_log := fun _ w => w;
     String_toLowerCase := fun s => s;
     String_replace := fun _ _ replacement => replacement |}.

(** A job that fails with [ReadError] on [in/a.xnb] and converts any other
    file. *)
Definition sample_job : job (list jsstring) :=
  fun input output w =>
    if jseqb input (js "in/a.xnb") then (w, inr ReadError)
    else (w ++ [output], inl tt).

(** What makes the continuation bytes still to come yield a code point of
    two bytes or more. *)
Definition pending_ok (p : pending) : Prop :=
  (2 <= cp p \/ ((2 <= needed p)%nat
                  /\ (1 <= cp p \/ (144 <= lower p /\ upper p <= 191))))%N.

(** ** What a run of the transcoder keeps

    [returns_or_ReadError m Q]: from any state, [m] either returns with [Q]
    relating the state before, the value and the state after, or throws
    [ReadError]. *)
Definition returns_or_ReadError {A} (m : M A)
                                (Q : tstate -> A -> tstate -> Prop) : Prop :=
  forall s, match m s with
            | inl (a, s') => Q s a s'
            | inr e => e = ReadError
            end.

(** The number of bytes the cursor has left. *)
Definition remaining (s : tstate) : nat := length (reader.buffer (inp s)).

(** From [s] to [s'] bytes went from the cursor to the writer as they were,
    and [tileSheets] stayed. *)
Definition copied (s s' : tstate) : Prop :=
  writer.buffer (out s') ++ reader.buffer (inp s')
  = writer.buffer (out s) ++ reader.buffer (inp s)
  /\ tileSheets s' = tileSheets s.

Definition ends_in_png (name : jsstring) : Prop :=
  exists source, name = source ++ js ".png".

(** ** [extractXnb]

    The converter and the text codec are collaborators of [main.js]
    ([./converter], [./typeyaml]) taken as parameters here, as is the UTF-8
    encoding [fs.writeFileSync] applies to a string. *)

Record codecs := {
  XnbToObject : Buffer -> result Document;
  typeyaml_stringify : Document -> Z -> result jsstring;
  utf8_encode : jsstring -> Buffer
}.

(** The job on one file, over the log of the files written so far.
    [mkdirp.sync] is taken to succeed, like the writes. *)
Definition extractXnb (C : codecs) (P : platform) : job (list file_write) :=
  fun inputFile outputFile w =>
    match fs_readFileSync P inputFile with
    | inr e => (w, inr e)
    | inl inputBuffer =>
        match XnbToObject C inputBuffer with
        | inr e => (w, inr e)
        | inl data =>
            let (ws, r) := onPresave P outputFile data in
            match r with
            | inr e => (w ++ ws, inr e)
            | inl data' =>
                match typeyaml_stringify C data' 4 with
                | inr e => (w ++ ws, inr e)
                | inl text =>
                    (w ++ ws ++ [(outputFile, utf8_encode C text)], inl tt)
                end
            end
        end
    end.

(** The files the handler of the walker converts: those whose extension, in
    lower case, is [.xnb] or [.yaml]. *)
Definition convertible {world} (P : platform) (H : host world)
                       (file : jsstring * jsstring) : bool :=
  let ext := String_toLowerCase H (path_extname P (snd file)) in
  jseqb ext (js ".xnb") || jseqb ext (js ".yaml").

(** ** Trees whose recorded paths can be walked back

    A key that makes one segment of a path: not empty, with no dot. *)
Definition segment_ok (k : jsstring) : Prop := k <> [] /\ ~ In dot k.

(** [addressable t]: on the way of the traversal every plain object has
    distinct keys that are segments.  Below a [Texture2D] node, where the
    traversal does not go, anything is allowed. *)
#[local] Unset Elimination Schemes.
#[local] Set Elimination Schemes.

(** [q] extended by the relative path [rel]. *)
Definition extend (q rel : jsstring) : jsstring :=
  match rel with
  | [] => q
  | _ => dotted q ++ rel
  end.


(** A texture inside a plain object and an array, for the examples. *)
Definition gallery : value :=
  tagged (js "Gallery")
    (VObj [(js "title", VStr (js "two pixels"));
           (js "items", VArr [VNum 7; Texture2D pixel_fields])]).

(** ** Reinjection, relative to a subtree *)

(** The three assignments of one turn of the loop of [onPostload], through
    the reference the walk from [content] along [path] returns. *)
Definition assignAt (content : value) (path : jsstring) (img : png)
  : result value :=
  container <- objectWalk_ref content path ;;
  c1 <- set (target container) (js "data") (png_data img) ;;
  c2 <- set c1 (js "width") (png_width img) ;;
  c3 <- set c2 (js "height") (png_height img) ;;
  inl (plug container c3).

(** The turns of the loop, for the paths and the decoded images in turn. *)
Fixpoint assignAll (jobs : list (jsstring * png)) (content : value)
  : result value :=
  match jobs with
  | [] => inl content
  | (path, img) :: rest =>
      content' <- assignAt content path img ;; assignAll rest content'
  end.

(** The placeholder recorded, under [q], for the relative path and the
    image of [j]. *)
Definition job_image (q : jsstring) (j : jsstring * png) : value :=
  placeholder (png_data (snd j)) (png_width (snd j)) (png_height (snd j))
              (extend q (fst j)).

(** [object.type == 'Texture2D'], when the comparison returns. *)
Definition isTexture (fs : fields_t) : bool :=
  match loose_eq_string (or_undefined (lookup (js "type") fs))
                        (js "Texture2D") with
  | inl b => b
  | inr _ => false
  end.

(** A texture payload once its three fields were deleted and assigned
    again: they come last, in the order [data], [width], [height], with the
    values they read as. *)
Definition reappended (payload : value) : value :=
  match payload with
  | VObj fs =>
      VObj (remove (js "height") (remove (js "width") (remove (js "data") fs))
            ++ [(js "data", or_undefined (lookup (js "data") fs));
                (js "width", or_undefined (lookup (js "width") fs));
                (js "height", or_undefined (lookup (js "height") fs))])
  | _ => payload
  end.

(** The tree with the payload of every texture the traversal comes to
    [reappended]. *)
Fixpoint restored (t : value) : value :=
  match t with
  | VArr l => VArr (List.map restored l)
  | VObj fs =>
      if isTypeObject t then
        if isTexture fs then
          VObj (put (js "data")
                    (reappended (or_undefined (lookup (js "data") fs))) fs)
        else
          VObj (List.map (fun kv => if jseqb (fst kv) (js "data")
                                    then (fst kv, restored (snd kv))
                                    else kv) fs)
      else VObj (List.map (fun kv => (fst kv, restored (snd kv))) fs)
  | _ => t
  end.

(** [restorable t]: [t] is addressable and the payload of every texture the
    traversal comes to is a field mapping. *)
#[local] Unset Elimination Schemes.
Inductive restorable : value -> Prop :=
| restorable_leaf (v : value) : height v = O -> restorable v
| restorable_array (l : list value) :
    Forall restorable l -> restorable (VArr l)
| restorable_texture (fs pf : fields_t) :
    isTypeObject (VObj fs) = true ->
    loose_eq_string (or_undefined (lookup (js "type") fs)) (js "Texture2D")
    = inl true ->
    lookup (js "data") fs = Some (VObj pf) ->
    restorable (VObj fs)
| restorable_tagged (fs : fields_t) :
    isTypeObject (VObj fs) = true ->
    loose_eq_string (or_undefined (lookup (js "type") fs)) (js "Texture2D")
    = inl false ->
    Forall (fun kv => restorable (snd kv)) fs ->
    restorable (VObj fs)
| restorable_plain (fs : fields_t) :
    isTypeObject (VObj fs) = false ->
    NoDup (List.map fst fs) ->
    Forall (fun kv => segment_ok (fst kv)) fs ->
    Forall (fun kv => restorable (snd kv)) fs ->
    restorable (VObj fs).
#[local] Set Elimination Schemes.

(** The sidecar of the placeholder [image] is there and decodes to the
    pixels, the width and the height [image] holds. *)
Definition sidecar_holds (P : platform) (inputFile : jsstring) (image : value)
  : Prop :=
  exists d w h p name file,
    image = placeholder d w h p
    /\ getImageName P inputFile (VStr p) = inl name
    /\ fs_readFileSync P name = inl file
    /\ PNG_sync_read P file
       = inl {| png_width := w; png_height := h; png_data := d |}.

(** ** [packXnb]

    What [packXnb] takes from [./typeyaml] and [./converter]. *)
Record packers := {
  typeyaml_parse : jsstring -> result Document;
  ObjectToXnb : Document -> result Buffer
}.

(** The job on one file, over the log of the files written so far.  The
    input is read as UTF-8; [mkdirp.sync] is taken to succeed, like the
    write. *)
Definition packXnb (K : packers) (P : platform) : job (list file_write) :=
  fun inputFile outputFile w =>
    match fs_readFileSync P inputFile with
    | inr e => (w, inr e)
    | inl buffer =>
        let inputYaml := Buffer_toString buffer in
        match typeyaml_parse K inputYaml with
        | inr e => (w, inr e)
        | inl data =>
            match onPostload P inputFile data with
            | inr e => (w, inr e)
            | inl data' =>
                match ObjectToXnb K data' with
                | inr e => (w, inr e)
                | inl xnb => (w ++ [(outputFile, xnb)], inl tt)
                end
            end
        end
    end.

(** ** The paths of the traversal, as the specification words them

    [path] extended by the segment [seg]: with a separating dot only when
    the path so far is not empty. *)
Definition extended (path seg : jsstring) : jsstring :=
  match path with
  | [] => seg
  | _ => path ++ js "." ++ seg
  end.

(** The outcomes of calls made in turn: the first that throws ends them;
    otherwise the placeholders follow each other in the order of the calls
    and the nodes are collected. *)
Fixpoint in_turn (calls : list (result (list value * value)))
  : result (list value * list value) :=
  match calls with
  | [] => inl ([], [])
  | call :: rest =>
      ' (imgs, x') <- call ;;
      ' (imgs', l') <- in_turn rest ;;
      inl (imgs ++ imgs', x' :: l')
  end.

(** * Properties *)

(** ** Integers and the cursor *)

Lemma byteZ_byte_of_Z (z : Z) : byteZ (byte_of_Z z) = z mod 256.
Proof.
  unfold byteZ, byte_of_Z.
  pose proof (Z.mod_pos_bound z 256 ltac:(lia)) as Hb.
  destruct (Byte.of_N (Z.to_N (z mod 256))) eqn:E.
  - apply Byte.to_of_N in E. rewrite E, Z2N.id; lia.
  - apply Byte.of_N_None_iff in E. lia.
Qed.

Lemma readInt32LE_int32LE (n : Z) (rest : Buffer) :
  -2147483648 <= n < 2147483648 ->
  readInt32LE (int32LE n ++ rest) = inl n.
Proof.
  intros Hn. unfold int32LE, readInt32LE. cbn [app].
  rewrite !byteZ_byte_of_Z. f_equal.
  set (u := n mod 4294967296).
  assert (Hu : 0 <= u < 4294967296) by (apply Z.mod_pos_bound; lia).
  assert (Hsum : u mod 256 + 256 * ((u / 256) mod 256)
                 + 65536 * ((u / 65536) mod 256)
                 + 16777216 * ((u / 16777216) mod 256) = u).
  { Z.to_euclidean_division_equations. lia. }
  rewrite Hsum.
  assert (Hcase : (0 <= n /\ u = n) \/ (n < 0 /\ u = n + 4294967296)).
  { subst u. Z.to_euclidean_division_equations. lia. }
  destruct (Z.ltb_spec u 2147483648); lia.
Qed.

(** One step of a monadic run whose first action is known. *)
Ltac run E := unfold bind at 1; rewrite E; cbv beta iota.

Lemma consume_prefix (s : tstate) (bs rest : Buffer) (n : Z) :
  reader.buffer (inp s) = bs ++ rest ->
  n = Z.of_nat (length bs) ->
  exists s', consume n s = inl (bs, s')
             /\ reader.buffer (inp s') = rest
             /\ out s' = out s /\ tileSheets s' = tileSheets s.
Proof.
  intros Hbuf ->. unfold consume, reader.consume. rewrite Hbuf.
  rewrite length_app, Nat2Z.id.
  destruct (Z.ltb_spec (Z.of_nat (length bs + length rest))
                       (Z.of_nat (length bs))); [lia|].
  rewrite firstn_app, Nat.sub_diag, firstn_all, skipn_app, Nat.sub_diag,
    skipn_all.
  cbn [firstn skipn app]. rewrite app_nil_r.
  eexists. split; [reflexivity|]. cbn. auto.
Qed.

(** [skipString] on a well-formed string: the length and the bytes go to the
    output as they are. *)
Lemma skipString_run (s : tstate) (str rest : Buffer) :
  Z.of_nat (length str) < 2147483648 ->
  reader.buffer (inp s) = lpstring str ++ rest ->
  exists s', skipString s = inl (tt, s')
             /\ reader.buffer (inp s') = rest
             /\ writer.buffer (out s') = writer.buffer (out s) ++ lpstring str
             /\ tileSheets s' = tileSheets s.
Proof.
  intros Hlen Hbuf. unfold lpstring in *. rewrite <- !app_assoc in Hbuf.
  destruct (consume_prefix s _ _ 4 Hbuf eq_refl) as (s1 & E1 & B1 & O1 & T1).
  unfold skipString. run E1.
  unfold bind at 1, lift.
  rewrite <- (app_nil_r (int32LE _)), readInt32LE_int32LE by lia.
  unfold ret, bind at 1, out_writeInt32LE, with_out.
  set (s2 := {| inp := inp s1; out := _; tileSheets := _ |}).
  destruct (consume_prefix s2 str rest (Z.of_nat (length str)) B1 eq_refl)
    as (s3 & E3 & B3 & O3 & T3).
  run E3. unfold out_concat, with_out.
  eexists. split; [reflexivity|]. cbn. repeat split; auto.
  - rewrite O3. subst s2. cbn. rewrite O1, <- app_assoc. reflexivity.
  - rewrite T3. subst s2. cbn. exact T1.
Qed.

(** ** The tilemap header transcoder *)

(** C2.  On the minimal segment the transcoder returns the one name
    [tiles.png]; its output is the input with the image source rewritten
    (length field 9, then [tiles.png]), everything else in place, and it ends
    with the three trailing bytes. *)
Theorem transcode_minimal_segment (sizes trailing : Buffer) :
  length sizes = 32%nat ->
  length trailing = 3%nat ->
  transcode (minimal_segment sizes trailing)
  = inl (minimal_output sizes trailing, [js "tiles.png"])
  /\ readInt32LE (skipn 31 (minimal_output sizes trailing)) = inl 9
  /\ skipn (length (minimal_output sizes trailing) - 3)
           (minimal_output sizes trailing) = trailing.
Proof.
  intros Hs Ht.
  do 33 (destruct sizes as [|? sizes]; try discriminate Hs).
  do 4 (destruct trailing as [|? trailing]; try discriminate Ht).
  repeat split; vm_compute; reflexivity.
Qed.

Lemma transcode_minimal_segment_witness :
  transcode (minimal_segment (repeat x07 32) [x01; x02; x03])
  = inl (minimal_output (repeat x07 32) [x01; x02; x03], [js "tiles.png"])
  /\ readInt32LE (skipn 31 (minimal_output (repeat x07 32) [x01; x02; x03]))
     = inl 9
  /\ skipn (length (minimal_output (repeat x07 32) [x01; x02; x03]) - 3)
           (minimal_output (repeat x07 32) [x01; x02; x03]) = [x01; x02; x03].
Proof.
  apply (transcode_minimal_segment (repeat x07 32) [x01; x02; x03]);
    reflexivity.
Defined.

(** C1, as the code has it.  A property whose type byte is none of 0, 1, 2, 3
    raises nothing: its key and its type byte are copied, no value byte is
    read for it, and the loop goes on from the byte after the type byte with
    the remaining count. *)
Theorem skipProperty_unknown_tag (s : tstate) (key : Buffer) (t : byte)
                                 (rest : Buffer) :
  Z.of_nat (length key) < 2147483648 ->
  (3 < Byte.to_N t)%N ->
  reader.buffer (inp s) = lpstring key ++ t :: rest ->
  exists s',
    skipProperty s = inl (tt, s')
    /\ reader.buffer (inp s') = rest
    /\ writer.buffer (out s') = writer.buffer (out s) ++ lpstring key ++ [t]
    /\ tileSheets s' = tileSheets s
    /\ forall k : nat,
         while_countdown (Z.of_nat (S k)) skipProperty s
         = while_countdown (Z.of_nat k) skipProperty s'.
Proof.
  intros Hlen Ht Hbuf.
  destruct (skipString_run s key (t :: rest) Hlen Hbuf)
    as (s1 & E1 & B1 & O1 & T1).
  destruct (consume_prefix s1 [t] rest 1 B1 eq_refl)
    as (s2 & E2 & B2 & O2 & T2).
  assert (E : skipProperty s
              = inl (tt, {| inp := inp s2;
                            out := writer.concat (out s2) [t];
                            tileSheets := tileSheets s2 |})).
  { unfold skipProperty. run E1. run E2.
    unfold bind, out_concat, with_out. cbn [List.map].
    destruct (Byte.to_N t) as [|p] eqn:Et; [lia|].
    do 2 (destruct p as [p|p|]; try lia); reflexivity. }
  eexists. split; [exact E|].
  cbn [inp out tileSheets writer.buffer writer.concat]. repeat split; auto.
  - rewrite O2, O1, <- app_assoc. reflexivity.
  - congruence.
  - intros k. unfold while_countdown. rewrite !Nat2Z.id.
    cbn [repeatM]. unfold bind at 1. rewrite E. reflexivity.
Qed.

Lemma skipProperty_unknown_tag_witness :
  exists s',
    skipProperty {| inp := reader.new (lpstring (ascii_bytes "a") ++ [x05; x09]);
                    out := writer.new; tileSheets := [] |} = inl (tt, s')
    /\ reader.buffer (inp s') = [x09]
    /\ writer.buffer (out s') = lpstring (ascii_bytes "a") ++ [x05]
    /\ tileSheets s' = [].
Proof.
  destruct (skipProperty_unknown_tag
              {| inp := reader.new (lpstring (ascii_bytes "a") ++ [x05; x09]);
                 out := writer.new; tileSheets := [] |}
              (ascii_bytes "a") x05 [x09])
    as (s' & E & B & O & T & _).
  - vm_compute. reflexivity.
  - vm_compute. reflexivity.
  - reflexivity.
  - exists s'. repeat split; assumption.
Defined.

(** C1, the claim as stated fails.  The segment with a property of type 5 is
    transcoded without any error, and comes out byte for byte as it went
    in. *)
Lemma transcode_unknown_tag_no_error :
  transcode unknown_tag_segment = inl (unknown_tag_segment, [])
  /\ ~ (exists e : exn, transcode unknown_tag_segment = inr e).
Proof.
  assert (E : transcode unknown_tag_segment = inl (unknown_tag_segment, []))
    by (vm_compute; reflexivity).
  split; [exact E|]. intros [e He]. rewrite E in He. discriminate.
Qed.

(** ** Fields *)

Lemma jseqb_eq (a b : jsstring) : jseqb a b = true <-> a = b.
Proof.
  unfold jseqb. destruct (list_eq_dec N.eq_dec a b); split; congruence.
Qed.

Lemma jseqb_refl (a : jsstring) : jseqb a a = true.
Proof. apply jseqb_eq. reflexivity. Qed.

Lemma jseqb_neq (a b : jsstring) : jseqb a b = false <-> a <> b.
Proof.
  unfold jseqb. destruct (list_eq_dec N.eq_dec a b); split; congruence.
Qed.

Lemma has_key_lookup (k : jsstring) (fs : fields_t) (v : value) :
  lookup k fs = Some v -> has_key k fs = true.
Proof. unfold has_key. intros ->. reflexivity. Qed.

(** ** The extraction traversal *)

Lemma extractImages_tagged (tag x : value) (path : jsstring) :
  loose_eq_string tag (js "Texture2D") = inl false ->
  extractImages (VObj [(js "type", tag); (js "data", x)]) path
  = ' (images, x') <- extractImages x path ;;
    inl (images, VObj [(js "type", tag); (js "data", x')]).
Proof.
  intros Htag.
  assert (Ho : isTypeObject (VObj [(js "type", tag); (js "data", x)]) = true)
    by reflexivity.
  cbn [extractImages]. rewrite Ho.
  change (lookup (js "type") [(js "type", tag); (js "data", x)])
    with (Some tag).
  cbn [or_undefined]. rewrite Htag. cbn [extractFields].
  change (jseqb (js "type") (js "data")) with false.
  change (jseqb (js "data") (js "data")) with true. cbv iota.
  destruct (extractImages x path) as [[images x']|e]; [|reflexivity].
  cbn [app]. rewrite app_nil_r. reflexivity.
Qed.

(** [path] extended by a segment, as the two loops do it. *)
Lemma dotted_app (path seg : jsstring) :
  dotted path ++ seg
  = match path with [] => seg | _ => path ++ js "." ++ seg end.
Proof.
  destruct path; [reflexivity|].
  unfold dotted. cbn [js_truthy]. rewrite <- app_assoc. reflexivity.
Qed.

Lemma extractImages_singleton_array (x : value) (path : jsstring) :
  extractImages (VArr [x]) path
  = ' (images, x') <-
      extractImages x (match path with
                       | [] => js "0"
                       | _ => path ++ js "." ++ js "0"
                       end) ;;
    inl (images, VArr [x']).
Proof.
  cbn [extractImages extractElems].
  change (js_of_nat 0) with (js "0"). rewrite dotted_app.
  destruct (extractImages x _) as [[images x']|e]; [|reflexivity].
  rewrite app_nil_r. reflexivity.
Qed.

Lemma extractImages_singleton_object (key : jsstring) (x : value)
                                     (path : jsstring) :
  extractImages (VObj [(key, x)]) path
  = ' (images, x') <-
      extractImages x (match path with
                       | [] => key
                       | _ => path ++ js "." ++ key
                       end) ;;
    inl (images, VObj [(key, x')]).
Proof.
  cbn [extractImages isTypeObject length Nat.eqb andb extractFields].
  rewrite dotted_app.
  destruct (extractImages x _) as [[images x']|e]; [|reflexivity].
  rewrite app_nil_r. reflexivity.
Qed.

(** The texture of [in_items]: one placeholder at [items.0], and the payload
    without the three fields. *)
Lemma extractImages_in_items (payload : fields_t) :
  extractImages (in_items (Texture2D payload)) []
  = inl ([placeholder (or_undefined (lookup (js "data") payload))
                      (or_undefined (lookup (js "width") payload))
                      (or_undefined (lookup (js "height") payload))
                      (js "items.0")],
         in_items (Texture2D (remove (js "height")
                                (remove (js "width")
                                   (remove (js "data") payload))))).
Proof.
  reflexivity.
Qed.

(** C10.  On a node it takes for a [Texture2D] the traversal stops: whatever
    the payload holds, textures included, the call returns the one
    placeholder of the node itself, and leaves the payload as it is but for
    the three fields deleted. *)
Theorem extractImages_stops_at_texture (fields : fields_t) (payload : value)
                                       (path : jsstring) :
  isTypeObject (VObj fields) = true ->
  loose_eq_string (or_undefined (lookup (js "type") fields)) (js "Texture2D")
  = inl true ->
  lookup (js "data") fields = Some payload ->
  payload <> VUndefined ->
  payload <> VNull ->
  exists data width height,
    get payload (js "data") = inl data
    /\ get payload (js "width") = inl width
    /\ get payload (js "height") = inl height
    /\ extractImages (VObj fields) path
       = inl ([placeholder data width height path],
              VObj (put (js "data") (strip3 payload) fields)).
Proof.
  intros Htag Htex Hdata Hu Hn.
  cbn [extractImages]. rewrite Htag, Htex.
  unfold extractTexture, update_field.
  cbn [get]. rewrite Hdata, (has_key_lookup _ _ _ Hdata). cbn [or_undefined].
  destruct payload; try congruence;
    do 3 eexists; (split; [reflexivity|]); (split; [reflexivity|]);
    (split; [reflexivity|]); reflexivity.
Qed.

Lemma extractImages_stops_at_texture_witness :
  exists tree',
    extractImages nested_texture (js "a")
    = inl ([placeholder (VBuf two_pixels) (VNum 2) (VNum 1) (js "a")], tree')
    /\ objectWalk tree' (js "inner") = inl (VObj pixel_fields).
Proof.
  destruct (extractImages_stops_at_texture
              [(js "type", VStr (js "Texture2D"));
               (js "data", VObj ((js "inner", Texture2D pixel_fields)
                                   :: pixel_fields))]
              (VObj ((js "inner", Texture2D pixel_fields) :: pixel_fields))
              (js "a"))
    as (d & w & h & Ed & Ew & Eh & E); try reflexivity; try discriminate.
  eexists. split.
  - etransitivity; [exact E|].
    vm_compute in Ed, Ew, Eh.
    injection Ed as <-. injection Ew as <-. injection Eh as <-. reflexivity.
  - vm_compute. reflexivity.
Defined.

(** The two shapes of a tagged object. *)
Lemma tagged_shape (fs : fields_t) :
  isTypeObject (VObj fs) = true ->
  exists a x,
    fs = [(js "type", a); (js "data", x)]
    \/ fs = [(js "data", x); (js "type", a)].
Proof.
  destruct fs as [|[k1 v1] [|[k2 v2] [|]]]; try discriminate.
  cbn [isTypeObject length Nat.eqb andb]. unfold has_key. cbn [lookup].
  destruct (jseqb (js "type") k1) eqn:E1.
  - apply jseqb_eq in E1. subst k1.
    change (jseqb (js "data") (js "type")) with false. cbv iota.
    destruct (jseqb (js "data") k2) eqn:E2; [|discriminate].
    apply jseqb_eq in E2. subst k2. intros _. exists v1, v2. left. reflexivity.
  - destruct (jseqb (js "type") k2) eqn:E2; [|discriminate].
    apply jseqb_eq in E2. subst k2.
    change (jseqb (js "data") (js "type")) with false.
    destruct (jseqb (js "data") k1) eqn:E3; [|discriminate].
    apply jseqb_eq in E3. subst k1. intros _. exists v2, v1. right.
    reflexivity.
Qed.

(** The loop over an array calls the traversal on the element at each index
    [i], counted from [i0], with [path + i]. *)
Lemma extractElems_in_turn
    (rec : value -> jsstring -> result (list value * value))
    (path : jsstring) (l : list value) :
  forall i0,
    extractElems rec path l i0
    = in_turn (List.map (fun ix => rec (snd ix) (path ++ js_of_nat (fst ix)))
                        (combine (seq i0 (length l)) l)).
Proof.
  induction l as [|x l IH]; intros i0; [reflexivity|].
  cbn [extractElems length seq combine List.map in_turn fst snd].
  rewrite IH. reflexivity.
Qed.

(** The loop over the fields of an object calls the traversal on the value
    of each key, in enumeration order, with the path [visit] gives. *)
Lemma extractFields_in_turn
    (rec : value -> jsstring -> result (list value * value))
    (f : jsstring -> jsstring) (fs : fields_t) :
  extractFields rec (fun key => Some (f key)) fs
  = ' (images, xs') <-
      in_turn (List.map (fun kv => rec (snd kv) (f (fst kv))) fs) ;;
    inl (images, combine (List.map fst fs) xs').
Proof.
  induction fs as [|[k x] fs IH]; [reflexivity|].
  cbn [extractFields List.map in_turn fst snd]. rewrite IH.
  destruct (rec x (f k)) as [[imgs x']|e]; [|reflexivity].
  destruct (in_turn _) as [[imgs' xs']|e]; reflexivity.
Qed.

(** A tagged object that is no texture, in either order of its two keys. *)
Lemma extractImages_wrapper (fs : fields_t) (path : jsstring) :
  isTypeObject (VObj fs) = true ->
  loose_eq_string (or_undefined (lookup (js "type") fs)) (js "Texture2D")
  = inl false ->
  extractImages (VObj fs) path
  = ' (images, x') <-
      extractImages (or_undefined (lookup (js "data") fs)) path ;;
    inl (images, VObj (put (js "data") x' fs)).
Proof.
  intros Ht Htag. cbn [extractImages]. rewrite Ht, Htag.
  destruct (tagged_shape fs Ht) as (a & x & [-> | ->]);
    cbn [extractFields lookup put];
    change (jseqb (js "type") (js "data")) with false;
    change (jseqb (js "data") (js "type")) with false;
    change (jseqb (js "data") (js "data")) with true; cbv iota;
    cbn [or_undefined];
    (destruct (extractImages x path) as [[images x']|e]; [|reflexivity]);
    cbn [app]; rewrite app_nil_r; reflexivity.
Qed.

(** C4.  The path recorded for the texture of
    [{type: "T", data: {items: [texture]}}] is [items.0], whatever the
    payload of the texture.  A tagged object other than a texture, in either
    order of its keys, passes the path on to its payload as it got it, and
    visits nothing else.  In an array the element at every index [i] is
    visited with the path extended by [i], and in any other object the value
    of every key with the path extended by the key, in order: extended after
    a dot iff the path is not empty. *)
Theorem extractImages_path_tag_transparent :
  (forall payload : fields_t,
     exists data width height tree',
       extractImages (in_items (Texture2D payload)) []
       = inl ([placeholder data width height (js "items.0")], tree'))
  /\ (forall (fs : fields_t) (path : jsstring),
        isTypeObject (VObj fs) = true ->
        loose_eq_string (or_undefined (lookup (js "type") fs))
                        (js "Texture2D") = inl false ->
        extractImages (VObj fs) path
        = ' (images, x') <-
            extractImages (or_undefined (lookup (js "data") fs)) path ;;
          inl (images, VObj (put (js "data") x' fs)))
  /\ (forall (l : list value) (path : jsstring),
        extractImages (VArr l) path
        = ' (images, l') <-
            in_turn
              (List.map (fun ix => extractImages
                                     (snd ix)
                                     (extended path (js_of_nat (fst ix))))
                        (combine (seq 0 (length l)) l)) ;;
          inl (images, VArr l'))
  /\ (forall (fs : fields_t) (path : jsstring),
        isTypeObject (VObj fs) = false ->
        extractImages (VObj fs) path
        = ' (images, xs') <-
            in_turn
              (List.map (fun kv => extractImages (snd kv)
                                                 (extended path (fst kv)))
                        fs) ;;
          inl (images, VObj (combine (List.map fst fs) xs'))).
Proof.
  split; [|split; [|split]].
  - intros payload. do 4 eexists. apply extractImages_in_items.
  - exact extractImages_wrapper.
  - intros l path. cbn [extractImages]. rewrite extractElems_in_turn.
    rewrite (map_ext _ (fun ix => extractImages
                                    (snd ix)
                                    (extended path (js_of_nat (fst ix)))))
      by (intros [i x]; cbn [fst snd]; rewrite dotted_app; reflexivity).
    reflexivity.
  - intros fs path Hnt. cbn [extractImages]. rewrite Hnt.
    rewrite (extractFields_in_turn extractImages (fun key => dotted path ++ key)).
    rewrite (map_ext _ (fun kv => extractImages (snd kv)
                                                (extended path (fst kv))))
      by (intros [k x]; cbn [fst snd]; rewrite dotted_app; reflexivity).
    destruct (in_turn _) as [[images xs']|e]; reflexivity.
Qed.

Lemma extractImages_path_tag_transparent_witness :
  extractImages (VObj [(js "data", VArr [VNum 7; VNull; Texture2D pixel_fields]);
                       (js "type", VStr (js "T"))]) (js "p")
  = inl ([placeholder (VBuf two_pixels) (VNum 2) (VNum 1) (js "p.2")],
         VObj [(js "data", VArr [VNum 7; VNull; Texture2D []]);
               (js "type", VStr (js "T"))]).
Proof.
  rewrite (proj1 (proj2 extractImages_path_tag_transparent)
             [(js "data", VArr [VNum 7; VNull; Texture2D pixel_fields]);
              (js "type", VStr (js "T"))] (js "p") eq_refl eq_refl).
  reflexivity.
Defined.

(** ** [objectWalk]: termination and the equation of the source *)

Lemma split_dot_nonempty (s : jsstring) : split_dot s <> [].
Proof.
  destruct s as [|c s]; cbn; [discriminate|].
  destruct (N.eqb c dot); [discriminate|].
  destruct (split_dot s); discriminate.
Qed.

Lemma join_split_dot (s : jsstring) : join_dot (split_dot s) = s.
Proof.
  induction s as [|c s IH]; [reflexivity|].
  cbn [split_dot]. destruct (N.eqb_spec c dot) as [->|Hc].
  - pose proof (split_dot_nonempty s) as Hne.
    cbn [join_dot]. destruct (split_dot s) as [|p ps]; [congruence|].
    rewrite IH. reflexivity.
  - pose proof (split_dot_nonempty s) as Hne.
    destruct (split_dot s) as [|p ps]; [congruence|].
    cbn [join_dot] in *. destruct ps as [|q ps]; cbn [app]; congruence.
Qed.

Lemma rest_shorter (s : jsstring) :
  s <> [] -> (length (join_dot (tl (split_dot s))) < length s)%nat.
Proof.
  intros Hs. pose proof (join_split_dot s) as E.
  pose proof (split_dot_nonempty s) as Hne.
  destruct (split_dot s) as [|p ps]; [congruence|]. cbn [tl].
  destruct ps as [|q ps].
  - cbn. destruct s; [congruence|cbn; lia].
  - rewrite <- E. cbn [join_dot]. rewrite length_app. cbn [length]. lia.
Qed.

Lemma height_lookup (k : jsstring) (fs : fields_t) (v : value) :
  lookup k fs = Some v -> (height v < height (VObj fs))%nat.
Proof.
  cbn [height]. induction fs as [|[k' v'] fs IH]; cbn; [discriminate|].
  destruct (jseqb k k').
  - intros [= ->]. lia.
  - intros Hl. specialize (IH Hl). lia.
Qed.

Lemma height_nth_error (l : list value) (n : nat) (v : value) :
  nth_error l n = Some v -> (height v < height (VArr l))%nat.
Proof.
  cbn [height]. revert n. induction l as [|x l IH]; intros [|n]; cbn;
    try discriminate.
  - intros [= ->]. lia.
  - intros Hn. specialize (IH _ Hn). lia.
Qed.

Lemma height_get (o : value) (k : jsstring) (c : value) :
  get o k = inl c ->
  (height c <= height o)%nat
  /\ (forall fs, o = VObj fs -> (height c < height o)%nat).
Proof.
  destruct o; cbn [get]; try discriminate.
  - intros [= <-]. split; [cbn; lia|discriminate].
  - intros [= <-]. split; [cbn; lia|discriminate].
  - destruct (jseqb k (js "length")); intros [= <-];
      (split; [|discriminate]).
    + cbn; lia.
    + destruct (array_index k) as [n|]; [|cbn; lia].
      destruct (nth_N s n); cbn; lia.
  - destruct (jseqb k (js "length")); intros [= <-];
      (split; [|discriminate]).
    + cbn; lia.
    + destruct (array_index k) as [n|]; [|cbn; lia].
      destruct (nth_N b n); cbn; lia.
  - destruct (jseqb k (js "length")); intros [= <-];
      (split; [|discriminate]).
    + cbn; lia.
    + destruct (array_index k) as [n|]; [|cbn; lia].
      unfold nth_N. destruct (n <? N.of_nat (length elems))%N; [|cbn; lia].
      destruct (nth_error elems (N.to_nat n)) eqn:E; [|cbn; lia].
      apply height_nth_error in E. cbn [or_undefined]. lia.
  - intros [= <-]. destruct (lookup k fields) eqn:E; cbn [or_undefined].
    + apply height_lookup in E. split; [lia|]. intros ? _. exact E.
    + split; [cbn; lia|]. intros ? _. cbn. lia.
Qed.

Lemma isTypeObject_VObj (o : value) :
  isTypeObject o = true -> exists fs, o = VObj fs.
Proof. destruct o; try discriminate. eauto. Qed.

(** With fuel above the height of the object plus the length of the path the
    walk ends, and more fuel changes nothing. *)
Lemma objectWalk_fuel_enough (n : nat) :
  forall (m : nat) (o : value) (p : jsstring),
    (height o + length p < n)%nat ->
    (height o + length p < m)%nat ->
    objectWalk_fuel n o p <> None
    /\ objectWalk_fuel n o p = objectWalk_fuel m o p.
Proof.
  induction n as [|n IH]; intros m o p Hn Hm; [lia|].
  destruct m as [|m]; [lia|]. cbn [objectWalk_fuel].
  destruct (isTypeObject o) eqn:Ht.
  - destruct (get o (js "data")) as [child|e] eqn:Eg;
      [|split; [discriminate|reflexivity]].
    destruct (isTypeObject_VObj _ Ht) as [fs ->].
    destruct (height_get _ _ _ Eg) as [_ Hlt]. specialize (Hlt _ eq_refl).
    destruct (IH m child p) as [Hne Heq]; [lia|lia|].
    rewrite <- Heq.
    destruct (objectWalk_fuel n child p) as [[r|e]|]; [| |congruence];
      (split; [discriminate|reflexivity]).
  - destruct (js_truthy p) eqn:Hp; cbn [negb];
      [|split; [discriminate|reflexivity]].
    destruct (get o (hd [] (split_dot p))) as [child|e] eqn:Eg;
      [|split; [discriminate|reflexivity]].
    destruct (height_get _ _ _ Eg) as [Hle _].
    assert (Hs : (length (join_dot (tl (split_dot p))) < length p)%nat).
    { apply rest_shorter. destruct p; [discriminate|congruence]. }
    destruct (IH m child (join_dot (tl (split_dot p)))) as [Hne Heq];
      [lia|lia|].
    rewrite <- Heq.
    destruct (objectWalk_fuel n child _) as [[r|e]|]; [| |congruence];
      (split; [discriminate|reflexivity]).
Qed.

Lemma objectWalk_fuel_ref (n : nat) (o : value) (p : jsstring) :
  (height o + length p < n)%nat ->
  objectWalk_fuel n o p = Some (objectWalk_ref o p).
Proof.
  intros Hn. unfold objectWalk_ref.
  destruct (objectWalk_fuel_enough n (S (height o + length p)) o p Hn)
    as [Hne Heq]; [lia|].
  rewrite <- Heq. destruct (objectWalk_fuel n o p); congruence.
Qed.

(** [objectWalk] satisfies the equation its source text reads as. *)
Lemma objectWalk_ref_eq (o : value) (p : jsstring) :
  objectWalk_ref o p
  = if isTypeObject o then
      child <- get o (js "data") ;;
      r <- objectWalk_ref child p ;;
      inl {| target := target r;
             plug := fun v => update_child o (js "data") (plug r v) |}
    else if negb (js_truthy p) then
      inl {| target := o; plug := fun v => v |}
    else
      child <- get o (hd [] (split_dot p)) ;;
      r <- objectWalk_ref child (join_dot (tl (split_dot p))) ;;
      inl {| target := target r;
             plug := fun v =>
               update_child o (hd [] (split_dot p)) (plug r v) |}.
Proof.
  unfold objectWalk_ref at 1. cbn [objectWalk_fuel].
  destruct (isTypeObject o) eqn:Ht.
  - destruct (get o (js "data")) as [child|e] eqn:Eg; [|reflexivity].
    destruct (isTypeObject_VObj _ Ht) as [fs ->].
    destruct (height_get _ _ _ Eg) as [_ Hlt]. specialize (Hlt _ eq_refl).
    rewrite objectWalk_fuel_ref by lia.
    destruct (objectWalk_ref child p); reflexivity.
  - destruct (js_truthy p) eqn:Hp; cbn [negb]; [|reflexivity].
    destruct (get o (hd [] (split_dot p))) as [child|e] eqn:Eg; [|reflexivity].
    destruct (height_get _ _ _ Eg) as [Hle _].
    assert (Hs : (length (join_dot (tl (split_dot p))) < length p)%nat).
    { apply rest_shorter. destruct p; [discriminate|congruence]. }
    rewrite objectWalk_fuel_ref by lia.
    destruct (objectWalk_ref child _); reflexivity.
Qed.

Lemma objectWalk_eq (o : value) (p : jsstring) :
  objectWalk o p
  = if isTypeObject o then
      child <- get o (js "data") ;; objectWalk child p
    else if negb (js_truthy p) then inl o
    else
      child <- get o (hd [] (split_dot p)) ;;
      objectWalk child (join_dot (tl (split_dot p))).
Proof.
  unfold objectWalk. rewrite objectWalk_ref_eq.
  destruct (isTypeObject o).
  - destruct (get o (js "data")); [|reflexivity].
    destruct (objectWalk_ref _ p); reflexivity.
  - destruct (negb (js_truthy p)); [reflexivity|].
    destruct (get o _); [|reflexivity].
    destruct (objectWalk_ref _ _); reflexivity.
Qed.

Lemma lookup_remove_same (k : jsstring) (fs : fields_t) :
  lookup k (remove k fs) = None.
Proof.
  induction fs as [|[k' v] fs IH]; [reflexivity|]. cbn [remove filter fst].
  destruct (jseqb k k') eqn:E; cbn [negb]; [exact IH|].
  cbn [lookup]. rewrite E. exact IH.
Qed.

Lemma lookup_remove_other (k k' : jsstring) (fs : fields_t) :
  k <> k' -> lookup k (remove k' fs) = lookup k fs.
Proof.
  intros Hk. induction fs as [|[k0 v] fs IH]; [reflexivity|].
  cbn [remove filter fst lookup].
  destruct (jseqb k' k0) eqn:E; cbn [negb].
  - apply jseqb_eq in E. subst k0.
    apply jseqb_neq in Hk. rewrite Hk. exact IH.
  - cbn [lookup]. destruct (jseqb k k0); [reflexivity|exact IH].
Qed.

Lemma lookup_app (k : jsstring) (fs gs : fields_t) :
  lookup k (fs ++ gs)
  = match lookup k fs with Some v => Some v | None => lookup k gs end.
Proof.
  induction fs as [|[k' v] fs IH]; [reflexivity|]. cbn [app lookup].
  destruct (jseqb k k'); [reflexivity|exact IH].
Qed.

Lemma put_absent (k : jsstring) (v : value) (fs : fields_t) :
  lookup k fs = None -> put k v fs = fs ++ [(k, v)].
Proof.
  induction fs as [|[k' v'] fs IH]; [reflexivity|]. cbn [lookup put app].
  destruct (jseqb k k'); [discriminate|]. intros Hl. rewrite IH by exact Hl.
  reflexivity.
Qed.

Lemma isTypeObject_no_data (fs : fields_t) :
  lookup (js "data") fs = None -> isTypeObject (VObj fs) = false.
Proof.
  intros Hl. cbn [isTypeObject]. unfold has_key at 2. rewrite Hl.
  apply andb_false_r.
Qed.


(** ** The reinjection pass *)

(** A read that gives a value other than [undefined] was answered by the
    tree. *)
Lemma get_defined_own (o : value) (k : jsstring) (child : value) :
  get o k = inl child -> child <> VUndefined -> has_own o k = true.
Proof.
  assert (Hidx : forall (A : Type) (l : list A) (f : A -> value) (n : N),
             match nth_N l n with Some c => f c | None => VUndefined end
             <> VUndefined ->
             (n <? N.of_nat (length l))%N = true).
  { intros A l f n. unfold nth_N.
    destruct (n <? N.of_nat (length l))%N; [reflexivity|congruence]. }
  destruct o as [| |b0|z|s|b|l|f]; cbn [get has_own]; try discriminate;
    try (intros [= <-]; congruence).
  - destruct (jseqb k (js "length")); [reflexivity|]. cbn [orb].
    intros [= <-]. destruct (array_index k) as [n|]; [|congruence].
    apply (Hidx _ s (fun c => VStr [c])).
  - destruct (jseqb k (js "length")); [reflexivity|]. cbn [orb].
    intros [= <-]. destruct (array_index k) as [n|]; [|congruence].
    apply (Hidx _ b (fun c => VNum (byteZ c))).
  - destruct (jseqb k (js "length")); [reflexivity|]. cbn [orb].
    intros [= <-]. destruct (array_index k) as [n|]; [|congruence].
    apply (Hidx _ l (fun c => c)).
  - intros [= <-]. unfold has_key. destruct (lookup k f); [reflexivity|].
    cbn [or_undefined]. congruence.
Qed.

Lemma objectWalk_ref_undefined (p : jsstring) (r : ref) :
  objectWalk_ref VUndefined p = inl r -> target r = VUndefined.
Proof.
  rewrite objectWalk_ref_eq. cbn [isTypeObject].
  destruct (negb (js_truthy p)); [|discriminate].
  intros [= <-]. reflexivity.
Qed.

(** A walk through the tree that ends on a node has read no inherited
    member, whatever the prototypes provide. *)
Lemma resolved_stays (inh : value -> jsstring -> bool) (fuel : nat) :
  forall (o : value) (p : jsstring) (r : ref),
    objectWalk_ref o p = inl r ->
    target r <> VUndefined ->
    leaves_tree_fuel inh fuel o p = false.
Proof.
  induction fuel as [|fuel IH]; intros o p r Hwalk Hdef; [reflexivity|].
  cbn [leaves_tree_fuel]. rewrite objectWalk_ref_eq in Hwalk.
  destruct (isTypeObject o).
  - destruct (get o (js "data")) as [child|e]; [|reflexivity].
    destruct (objectWalk_ref child p) as [r0|e] eqn:E0; [|discriminate].
    injection Hwalk as <-. exact (IH child p r0 E0 Hdef).
  - destruct (negb (js_truthy p)); [reflexivity|].
    destruct (get o (hd [] (split_dot p))) as [child|e] eqn:Eg; [|reflexivity].
    destruct (objectWalk_ref child _) as [r0|e] eqn:E0; [|discriminate].
    injection Hwalk as <-. cbn [target] in Hdef.
    assert (Hchild : child <> VUndefined).
    { intros ->. apply Hdef. eapply objectWalk_ref_undefined. exact E0. }
    rewrite (get_defined_own _ _ _ Eg Hchild). cbn [negb andb].
    exact (IH child _ r0 E0 Hdef).
Qed.

Lemma reinject_run (P : platform) (inputFile : jsstring) (image : value)
                   (p name : jsstring) (file : Buffer) (img : png)
                   (content : value) :
  get image (js "path") = inl (VStr p) ->
  getImageName P inputFile (VStr p) = inl name ->
  fs_readFileSync P name = inl file ->
  PNG_sync_read P file = inl img ->
  leaves_tree (inherited P) content p = false ->
  reinject P inputFile image content
  = container <- objectWalk_ref content p ;;
    c1 <- set (target container) (js "data") (png_data img) ;;
    c2 <- set c1 (js "width") (png_width img) ;;
    c3 <- set c2 (js "height") (png_height img) ;;
    inl (plug container c3).
Proof.
  intros Hp Hn Hf Hi Hs. unfold reinject. rewrite Hp, Hn, Hf, Hi.
  cbn [path_arg]. rewrite Hs. reflexivity.
Qed.


Lemma lookup_strip3 (k : jsstring) (fs : fields_t) :
  lookup k (remove (js "height") (remove (js "width") (remove (js "data") fs)))
  = if jseqb k (js "data") || jseqb k (js "width") || jseqb k (js "height")
    then None else lookup k fs.
Proof.
  destruct (jseqb k (js "height")) eqn:Eh.
  { apply jseqb_eq in Eh. subst k. rewrite !orb_true_r.
    apply lookup_remove_same. }
  apply jseqb_neq in Eh. rewrite lookup_remove_other by exact Eh.
  destruct (jseqb k (js "width")) eqn:Ew.
  { apply jseqb_eq in Ew. subst k. rewrite orb_true_r.
    apply lookup_remove_same. }
  apply jseqb_neq in Ew. rewrite lookup_remove_other by exact Ew.
  destruct (jseqb k (js "data")) eqn:Ed.
  { apply jseqb_eq in Ed. subst k. apply lookup_remove_same. }
  apply jseqb_neq in Ed. rewrite lookup_remove_other by exact Ed.
  reflexivity.
Qed.

(** Assigning [data], [width] and [height] to an object that has none of
    them appends the three fields, in this order. *)
Lemma set_three (fs : fields_t) (d w h : value) :
  lookup (js "data") fs = None ->
  lookup (js "width") fs = None ->
  lookup (js "height") fs = None ->
  (c1 <- set (VObj fs) (js "data") d ;;
   c2 <- set c1 (js "width") w ;;
   c3 <- set c2 (js "height") h ;;
   inl c3)
  = inl (VObj (fs ++ [(js "data", d); (js "width", w); (js "height", h)])).
Proof.
  intros Hd Hw Hh. cbn [set].
  rewrite (put_absent _ _ _ Hd).
  rewrite (put_absent (js "width")) by (rewrite lookup_app, Hw; reflexivity).
  rewrite (put_absent (js "height"))
    by (rewrite !lookup_app, Hh; reflexivity).
  rewrite <- !app_assoc. reflexivity.
Qed.



(** C8.  Without [extractedImages] the pass returns the document it was
    given, whatever the platform holds. *)
Theorem onPostload_absent_noop (P : platform) (inputFile : jsstring)
                               (data : Document) :
  extractedImages data = None ->
  onPostload P inputFile data = inl data.
Proof. intros H. unfold onPostload. rewrite H. reflexivity. Qed.

Lemma onPostload_absent_noop_witness :
  onPostload (sample_platform []) (js "out/map.yaml") texture_document
  = inl texture_document.
Proof.
  apply (onPostload_absent_noop (sample_platform []) (js "out/map.yaml")
           texture_document).
  reflexivity.
Defined.


(** A first segment that names no field of a plain object leaves the walk
    unresolved: on [undefined] if it was the last segment, on a [TypeError]
    if more follow. *)
Lemma unresolved_missing_field (fs : fields_t) (p : jsstring) :
  isTypeObject (VObj fs) = false ->
  p <> [] ->
  lookup (hd [] (split_dot p)) fs = None ->
  unresolved (VObj fs) p.
Proof.
  intros Hnt Hp Hl. unfold unresolved. rewrite objectWalk_eq, Hnt.
  destruct p as [|c p]; [congruence|]. cbn [js_truthy negb get].
  rewrite Hl. cbn [or_undefined]. rewrite objectWalk_eq.
  cbn [isTypeObject].
  destruct (js_truthy (join_dot (tl (split_dot (c :: p))))); cbn [negb get];
    [right|left]; reflexivity.
Qed.





(** A path that names a member the node inherits is no unresolved path to
    the code: the walk reads the member and the assignments go to it.  With
    the engine of the examples the pass returns and the tree is as it was. *)
Example onPostload_inherited_member :
  onPostload (sample_platform [(js "out/map.constructor.png", two_pixels_file)])
    (js "out/map.yaml")
    {| content := in_items (Texture2D []);
       extractedImages := Some [stripped (js "constructor")];
       other := [] |}
  = inl {| content := in_items (Texture2D []);
           extractedImages := Some [stripped (js "constructor")];
           other := [] |}.
Proof. vm_compute. reflexivity. Qed.

(** ** The save-side pass *)

Lemma extractElems_Forall (Q : value -> Prop)
    (rec : value -> jsstring -> result (list value * value))
    (path : jsstring) (l : list value) :
  Forall (fun x => forall p images x',
            rec x p = inl (images, x') -> Forall Q images) l ->
  forall i images l',
    extractElems rec path l i = inl (images, l') -> Forall Q images.
Proof.
  induction 1 as [|x l Hx _ IH]; intros i images l'; cbn [extractElems].
  - intros [= <- <-]. constructor.
  - destruct (rec x _) as [[imgs x']|e] eqn:Ex; [|discriminate].
    destruct (extractElems rec path l (S i)) as [[imgs' l'']|e] eqn:El;
      [|discriminate].
    intros [= <- <-]. apply Forall_app. split; [eapply Hx|eapply IH]; eauto.
Qed.

Lemma extractFields_Forall (Q : value -> Prop)
    (rec : value -> jsstring -> result (list value * value))
    (visit : jsstring -> option jsstring) (fs : fields_t) :
  Forall (fun kv => forall p images x',
            rec (snd kv) p = inl (images, x') -> Forall Q images) fs ->
  forall images fs',
    extractFields rec visit fs = inl (images, fs') -> Forall Q images.
Proof.
  induction 1 as [|[k x] fs Hx _ IH]; intros images fs'; cbn [extractFields].
  - intros [= <- <-]. constructor.
  - destruct (match visit k with Some p => rec x p | None => inl ([], x) end)
      as [[imgs x']|e] eqn:Ex; [|discriminate].
    destruct (extractFields rec visit fs) as [[imgs' fs'']|e] eqn:El;
      [|discriminate].
    intros [= <- <-]. apply Forall_app. split; [|eapply IH; eauto].
    destruct (visit k) as [p|].
    + eapply Hx. exact Ex.
    + injection Ex as <- <-. constructor.
Qed.

(** All that [extractImages] returns are placeholders in full. *)
Lemma extractImages_placeholders (object : value) :
  forall path images object',
    extractImages object path = inl (images, object') ->
    Forall is_placeholder images.
Proof.
  induction object as [v Hv|l IH|fs IH] using value_ind'; intros path images o'.
  - destruct v; try discriminate Hv; intros [= <- <-]; constructor.
  - cbn [extractImages].
    destruct (extractElems extractImages (dotted path) l 0)
      as [[imgs l']|e] eqn:E; [|discriminate].
    intros [= <- <-]. eapply extractElems_Forall; eauto.
  - cbn [extractImages]. destruct (isTypeObject (VObj fs)).
    + destruct (loose_eq_string _ _) as [[|]|e]; [| |discriminate].
      * unfold extractTexture.
        destruct (get (VObj fs) (js "data")) as [payload|e]; [|discriminate].
        destruct (get payload (js "data")) as [d|e]; [|discriminate].
        destruct (get payload (js "width")) as [w|e]; [|discriminate].
        destruct (get payload (js "height")) as [h|e]; [|discriminate].
        destruct (delete payload (js "data")) as [p1|e]; [|discriminate].
        destruct (delete p1 (js "width")) as [p2|e]; [|discriminate].
        destruct (delete p2 (js "height")) as [p3|e]; [|discriminate].
        intros [= <- <-]. constructor; [|constructor].
        exists d, w, h, path. reflexivity.
      * destruct (extractFields extractImages _ fs) as [[imgs fs']|e] eqn:E;
          [|discriminate].
        intros [= <- <-]. eapply extractFields_Forall; eauto.
    + destruct (extractFields extractImages _ fs) as [[imgs fs']|e] eqn:E;
        [|discriminate].
      intros [= <- <-]. eapply extractFields_Forall; eauto.
Qed.

(** The loop of [onPresave] leaves of every placeholder its path alone. *)
Lemma writeImages_stripped (P : platform) (outputFile : jsstring)
                           (images : list value) :
  Forall is_placeholder images ->
  forall ws images',
    writeImages P outputFile images = (ws, inl images') ->
    Forall is_stripped images' /\ length images' = length images.
Proof.
  induction 1 as [|image images (d & w & h & p & ->) _ IH]; intros ws images';
    cbn [writeImages].
  - intros [= <- <-]. split; [constructor|reflexivity].
  - change (get (placeholder d w h p) (js "path")) with (@inl _ exn (VStr p)).
    change (get (placeholder d w h p) (js "width")) with (@inl _ exn w).
    change (get (placeholder d w h p) (js "height")) with (@inl _ exn h).
    change (get (placeholder d w h p) (js "data")) with (@inl _ exn d).
    cbv beta iota.
    destruct (getImageName P outputFile (VStr p)) as [filename|e];
      [|discriminate].
    destruct (PNG_sync_write P _) as [buffer|e]; [|discriminate].
    change (delete (placeholder d w h p) (js "data"))
      with (@inl _ exn (VObj [(js "width", w); (js "height", h);
                              (js "path", VStr p)])).
    cbv beta iota.
    change (delete (VObj [(js "width", w); (js "height", h);
                          (js "path", VStr p)]) (js "width"))
      with (@inl _ exn (VObj [(js "height", h); (js "path", VStr p)])).
    cbv beta iota.
    change (delete (VObj [(js "height", h); (js "path", VStr p)])
                   (js "height"))
      with (@inl _ exn (stripped p)).
    cbv beta iota.
    destruct (writeImages P outputFile images) as [ws' [rest|e]];
      [|discriminate].
    intros [= <- <-]. destruct (IH _ _ eq_refl) as [IH1 IH2].
    split; [constructor; [exists p; reflexivity|exact IH1]|].
    cbn [length]. congruence.
Qed.

(** C6, as the code has it.  In the document [onPresave] returns, every
    entry of the [extractedImages] it attached is an object with the one
    field [path]: the loop deleted [width] and [height] along with the pixel
    buffer. *)
Theorem onPresave_placeholders_keep_path_only (P : platform)
    (outputFile : jsstring) (data data' : Document) (ws : list file_write)
    (images : list value) :
  extractedImages data = None ->
  onPresave P outputFile data = (ws, inl data') ->
  extractedImages data' = Some images ->
  images <> []
  /\ Forall (fun image =>
               exists path,
                 image = VObj [(js "path", VStr path)]
                 /\ get image (js "width") = inl VUndefined
                 /\ get image (js "height") = inl VUndefined
                 /\ get image (js "data") = inl VUndefined) images.
Proof.
  intros Hnone Hrun Hsome. unfold onPresave in Hrun.
  destruct (presaveMap P outputFile (content data)) as [w1 [content2|e]];
    [|discriminate].
  destruct (extractImages content2 []) as [[found content3]|e] eqn:Ex;
    [|discriminate].
  destruct (writeImages P outputFile found) as [w2 [images'|e]] eqn:Ew;
    [|discriminate].
  injection Hrun as _ <-.
  apply extractImages_placeholders in Ex.
  destruct (writeImages_stripped P outputFile found Ex _ _ Ew) as [Hs _].
  destruct images' as [|image images']; cbn in Hsome; [congruence|].
  injection Hsome as <-. split; [discriminate|].
  eapply Forall_impl; [|exact Hs].
  intros im [p ->]. exists p. repeat split; reflexivity.
Qed.

Lemma onPresave_placeholders_keep_path_only_witness :
  [stripped []] <> []
  /\ Forall (fun image =>
               exists path,
                 image = VObj [(js "path", VStr path)]
                 /\ get image (js "width") = inl VUndefined
                 /\ get image (js "height") = inl VUndefined
                 /\ get image (js "data") = inl VUndefined) [stripped []].
Proof.
  apply (onPresave_placeholders_keep_path_only (sample_platform [])
           (js "out/map.yaml") texture_document
           {| content := Texture2D [(js "format", VNum 0)];
              extractedImages := Some [stripped []];
              other := [] |}
           [(js "out/map..png", two_pixels_file)]).
  - reflexivity.
  - vm_compute. reflexivity.
  - reflexivity.
Defined.

(** C6, the claim as stated fails.  After [onPresave] on a texture document
    the one entry of [extractedImages] has its path and neither [width] nor
    [height]. *)
Lemma onPresave_placeholder_loses_size :
  onPresave (sample_platform []) (js "out/map.yaml") texture_document
  = ([(js "out/map..png", two_pixels_file)],
     inl {| content := Texture2D [(js "format", VNum 0)];
            extractedImages := Some [VObj [(js "path", VStr [])]];
            other := [] |})
  /\ lookup (js "width") [(js "path", VStr [])] = None
  /\ lookup (js "height") [(js "path", VStr [])] = None.
Proof. repeat split; vm_compute; reflexivity. Qed.

(** ** The batch driver *)

Lemma readErrorWrapper_throw (world : Type) (fn : job world)
    (input output : jsstring) (w w' : world) (e : exn) :
  fn input output w = (w', inr e) ->
  readErrorWrapper fn input output w
  = (w', if is_ReadError e then inl tt else inr e).
Proof.
  intros E. unfold readErrorWrapper. rewrite E.
  destruct (is_ReadError e); reflexivity.
Qed.

(** C9.  When the job on a file of the directory throws [e]: the wrapped job
    returns if [e] is a [ReadError] and throws [e] otherwise; so that the
    run goes on with the files that follow in the first case and ends with
    [e] in the second.  The same holds of the wrapper on any call. *)
Theorem readErrorWrapper_batch (world : Type) (P : platform) (H : host world)
    (quiet : bool) (fn : job world) (input output root name : jsstring)
    (rest : list (jsstring * jsstring)) (st : stats) (w w' : world) (e : exn) :
  fs_statSync H input w = inl st ->
  isFile st = false ->
  isDirectory st = true ->
  walk_files H input w = (root, name) :: rest ->
  onFile P H quiet fn input output root name w = (w', inr e) ->
  onFile P H quiet (readErrorWrapper fn) input output root name w
  = (w', if is_ReadError e then inl tt else inr e)
  /\ applyOrRecurse P H quiet fn input output w
     = (if is_ReadError e
        then walkFiles P H quiet (readErrorWrapper fn)
               input output rest w'
        else (w', inr e))
  /\ (forall (src dst : jsstring) (w0 w1 : world) (e0 : exn),
        fn src dst w0 = (w1, inr e0) ->
        readErrorWrapper fn src dst w0
        = (w1, if is_ReadError e0 then inl tt else inr e0)).
Proof.
  intros Hstat Hfile Hdir Hwalk Hjob.
  assert (Hon : onFile P H quiet (readErrorWrapper fn)
                  input output root name w
                = (w', if is_ReadError e then inl tt else inr e)).
  { unfold onFile in *.
    destruct (negb _ && negb _); [discriminate|].
    apply readErrorWrapper_throw. exact Hjob. }
  split; [exact Hon|split].
  - unfold applyOrRecurse. rewrite Hstat, Hfile, Hdir, Hwalk.
    cbn [walkFiles]. rewrite Hon. destruct (is_ReadError e); reflexivity.
  - intros src dst w0 w1 e0. apply readErrorWrapper_throw.
Qed.

Lemma readErrorWrapper_batch_witness :
  onFile (sample_platform []) sample_host true
    (readErrorWrapper sample_job)
    (js "in") (js "out") (js "in") (js "a.xnb") []
  = ([], inl tt)
  /\ applyOrRecurse (sample_platform []) sample_host true
       sample_job (js "in") (js "out") []
     = ([js "out/map.xnb"], inl tt).
Proof.
  destruct (readErrorWrapper_batch (list jsstring) (sample_platform [])
              sample_host true sample_job (js "in") (js "out")
              (js "in") (js "a.xnb") [(js "in", js "b.xnb")]
              {| isFile := false; isDirectory := true |} [] [] ReadError)
    as (E1 & E2 & _); try reflexivity.
  split; [exact E1|]. rewrite E2. vm_compute. reflexivity.
Defined.

(** ** The magic of a tilemap segment *)

Lemma utf16_units_head (c : N) :
  (128 <= c)%N -> exists u us, utf16_units c = u :: us /\ (128 <= u)%N.
Proof.
  intros Hc. unfold utf16_units. destruct (c <? 65536)%N.
  - exists c, []. split; [reflexivity|exact Hc].
  - eexists _, _. split; [reflexivity|].
    apply N.le_trans with 55296%N; [lia|apply N.le_add_r].
Qed.

Lemma land_63 (b : N) : N.land b 63 = (b mod 64)%N.
Proof. change 63%N with (N.ones 6). apply N.land_ones. Qed.

(** From a pending state on, the first unit decoded is not ASCII. *)
Lemma utf8_pending_head (bs : list N) :
  forall p, pending_ok p ->
    exists u us,
      flat_map utf16_units (utf8_points (Some p) bs) = u :: us
      /\ (128 <= u)%N.
Proof.
  induction bs as [|b bs IH]; intros p Hp.
  - exists REPLACEMENT, []. split; [reflexivity|]. unfold REPLACEMENT. lia.
  - cbn [utf8_points].
    destruct ((lower p <=? b) && (b <=? upper p))%N eqn:Hr.
    + apply andb_true_iff in Hr. destruct Hr as [Hlo Hhi].
      apply N.leb_le in Hlo, Hhi.
      destruct (needed p) as [|[|r]] eqn:Hn.
      * cbn [flat_map].
        destruct (utf16_units_head (cp p * 64 + N.land b 63))
          as (u & us & E & Hu).
        { destruct Hp as [Hp|[Hp _]]; lia. }
        rewrite E. eexists _, _. split; [reflexivity|exact Hu].
      * cbn [flat_map].
        destruct (utf16_units_head (cp p * 64 + N.land b 63))
          as (u & us & E & Hu).
        { destruct Hp as [Hp|[Hp _]]; lia. }
        rewrite E. eexists _, _. split; [reflexivity|exact Hu].
      * apply IH. left. cbn [cp].
        destruct Hp as [Hp|[_ [Hp|[Hp1 Hp2]]]]; [lia|lia|].
        rewrite land_63. zify. Z.to_euclidean_division_equations. lia.
    + cbn [flat_map]. exists REPLACEMENT. eexists. split; [reflexivity|].
      unfold REPLACEMENT. lia.
Qed.

Lemma utf8_lead_nonascii (b : N) :
  (128 <= b)%N ->
  utf8_lead b = ([REPLACEMENT], None)
  \/ exists p, utf8_lead b = ([], Some p) /\ pending_ok p.
Proof.
  intros Hb. unfold utf8_lead.
  destruct (N.leb_spec b 127); [lia|].
  destruct ((194 <=? b) && (b <=? 223))%N eqn:H2.
  { right. eexists. split; [reflexivity|]. left. cbn [cp].
    apply andb_true_iff in H2. destruct H2 as [Hlo Hhi].
    apply N.leb_le in Hlo, Hhi.
    change 31%N with (N.ones 5). rewrite N.land_ones.
    zify. Z.to_euclidean_division_equations. lia. }
  destruct ((224 <=? b) && (b <=? 239))%N eqn:H3.
  { right. eexists. split; [reflexivity|]. right.
    cbn [cp needed lower upper]. split; [lia|].
    apply andb_true_iff in H3. destruct H3 as [Hlo Hhi].
    apply N.leb_le in Hlo, Hhi.
    destruct (N.eqb_spec b 224) as [->|Hne].
    - right. cbn. lia.
    - left. change 15%N with (N.ones 4). rewrite N.land_ones.
      zify. Z.to_euclidean_division_equations. lia. }
  destruct ((240 <=? b) && (b <=? 244))%N eqn:H4.
  { right. eexists. split; [reflexivity|]. right.
    cbn [cp needed lower upper]. split; [lia|].
    apply andb_true_iff in H4. destruct H4 as [Hlo Hhi].
    apply N.leb_le in Hlo, Hhi.
    destruct (N.eqb_spec b 240) as [->|Hne].
    - right. cbn. lia.
    - left. change 7%N with (N.ones 3). rewrite N.land_ones.
      zify. Z.to_euclidean_division_equations. lia. }
  left. reflexivity.
Qed.

(** A buffer that decodes to ASCII characters only holds just these. *)
Lemma Buffer_toString_ascii (buf : Buffer) :
  Forall (fun u => (u < 128)%N) (Buffer_toString buf) ->
  List.map Byte.to_N buf = Buffer_toString buf.
Proof.
  unfold Buffer_toString. induction buf as [|b buf IH]; [reflexivity|].
  cbn [List.map utf8_points]. intros Hall.
  destruct (N.leb_spec (Byte.to_N b) 127) as [Hb|Hb].
  - assert (El : utf8_lead (Byte.to_N b) = ([Byte.to_N b], None)).
    { unfold utf8_lead. destruct (N.leb_spec (Byte.to_N b) 127); [|lia].
      reflexivity. }
    rewrite El in *. cbn [fst snd app flat_map] in *.
    assert (Eu : utf16_units (Byte.to_N b) = [Byte.to_N b]).
    { unfold utf16_units. destruct (N.ltb_spec (Byte.to_N b) 65536); [|lia].
      reflexivity. }
    rewrite Eu in *. cbn [app] in *. inversion Hall; subst.
    f_equal. apply IH. assumption.
  - exfalso.
    destruct (utf8_lead_nonascii (Byte.to_N b)) as [El|(p & El & Hp)]; [lia| |];
      rewrite El in Hall; cbn [fst snd app flat_map] in Hall.
    + cbn in Hall. inversion Hall; subst. unfold REPLACEMENT in *. lia.
    + destruct (utf8_pending_head (List.map Byte.to_N buf) p Hp)
        as (u & us & E & Hu).
      rewrite E in Hall. inversion Hall; subst. lia.
Qed.

Lemma map_to_N_inj (a b : Buffer) :
  List.map Byte.to_N a = List.map Byte.to_N b -> a = b.
Proof.
  revert b. induction a as [|x a IH]; intros [|y b]; cbn; try discriminate;
    [reflexivity|].
  intros [= Hxy Hab]. f_equal; [|apply IH; exact Hab].
  pose proof (Byte.of_to_N x) as Hx. rewrite Hxy, Byte.of_to_N in Hx.
  congruence.
Qed.

(** The test of [extractMap] on a Buffer holds exactly when its first six
    bytes are the magic. *)
Lemma magic_test (b : Buffer) :
  jseqb (Buffer_toString_range b 0 6) (js "tBIN10") = true
  <-> firstn 6 b = magic.
Proof.
  unfold Buffer_toString_range. cbn [Nat.sub skipn]. split.
  - intros E. apply jseqb_eq in E. apply map_to_N_inj.
    rewrite Buffer_toString_ascii; rewrite E; [reflexivity|].
    repeat constructor.
  - intros ->. reflexivity.
Qed.

Lemma lookup_put_same (k : jsstring) (v : value) (fs : fields_t) :
  lookup k (put k v fs) = Some v.
Proof.
  induction fs as [|[k' v'] fs IH]; cbn [put lookup].
  - rewrite jseqb_refl. reflexivity.
  - destruct (jseqb k k') eqn:E; cbn [lookup].
    + rewrite jseqb_refl. reflexivity.
    + rewrite E. exact IH.
Qed.

Lemma lookup_put_other (k k' : jsstring) (v : value) (fs : fields_t) :
  k <> k' -> lookup k (put k' v fs) = lookup k fs.
Proof.
  intros Hk. induction fs as [|[k0 v0] fs IH]; cbn [put lookup].
  - apply jseqb_neq in Hk. rewrite Hk. reflexivity.
  - destruct (jseqb k' k0) eqn:E; cbn [lookup].
    + apply jseqb_eq in E. subst k0. apply jseqb_neq in Hk. rewrite Hk.
      reflexivity.
    + destruct (jseqb k k0); [reflexivity|exact IH].
Qed.

Lemma put_put (k : jsstring) (v v' : value) (fs : fields_t) :
  put k v' (put k v fs) = put k v' fs.
Proof.
  induction fs as [|[k0 v0] fs IH]; cbn [put].
  - rewrite jseqb_refl. reflexivity.
  - destruct (jseqb k k0) eqn:E; cbn [put].
    + rewrite jseqb_refl. reflexivity.
    + rewrite E, IH. reflexivity.
Qed.

Lemma js_data_tileSheets : js "data" <> js "tileSheets".
Proof. intros E. vm_compute in E. discriminate. Qed.

(** C7.  For a content whose payload holds a Buffer under [data]: if the
    first six bytes of the Buffer are the magic, and the segment is
    transcoded, the first part of [onPresave] writes the transcoded bytes to
    the [.tbin] file and leaves the payload without [data] and with the names
    under [tileSheets]; if they are not, it writes nothing and leaves the
    content as it was. *)
Theorem presaveMap_tilemap_iff (P : platform) (outputFile : jsstring)
                               (cfs pfs : fields_t) (b : Buffer) :
  lookup (js "data") cfs = Some (VObj pfs) ->
  lookup (js "data") pfs = Some (VBuf b) ->
  (firstn 6 b = magic ->
   forall bytes names,
     transcode b = inl (bytes, names) ->
     let payload' :=
       put (js "tileSheets") (VArr (List.map VStr names))
           (remove (js "data") pfs) in
     presaveMap P outputFile (VObj cfs)
     = ([(tbinName P outputFile, bytes)],
        inl (VObj (put (js "data") (VObj payload') cfs)))
     /\ lookup (js "data") payload' = None
     /\ lookup (js "tileSheets") payload' = Some (VArr (List.map VStr names)))
  /\ (firstn 6 b <> magic ->
      presaveMap P outputFile (VObj cfs) = ([], inl (VObj cfs))).
Proof.
  intros Hc Hp.
  assert (Hrun : presaveMap P outputFile (VObj cfs)
                 = if jseqb (Buffer_toString_range b 0 6) (js "tBIN10")
                   then transcodeMap P outputFile (VBuf b)
                          (VObj (put (js "data")
                                   (VObj (remove (js "data") pfs)) cfs))
                   else ([], inl (VObj cfs))).
  { unfold presaveMap, extractMap. cbn [get]. rewrite Hc.
    cbn [or_undefined get]. rewrite Hp.
    cbn [or_undefined toString_utf8_0_6].
    destruct (jseqb (Buffer_toString_range b 0 6) (js "tBIN10"));
      [|reflexivity].
    cbn [delete update_field]. rewrite (has_key_lookup _ _ _ Hc).
    reflexivity. }
  split.
  - intros Hmagic bytes names Ht payload'.
    apply magic_test in Hmagic. rewrite Hrun, Hmagic.
    unfold transcodeMap. rewrite Ht. cbn [get].
    rewrite lookup_put_same. cbn [or_undefined set update_field].
    unfold has_key. rewrite lookup_put_same, put_put.
    split; [reflexivity|]. subst payload'. split.
    + rewrite lookup_put_other by exact js_data_tileSheets.
      apply lookup_remove_same.
    + apply lookup_put_same.
  - intros Hmagic. rewrite Hrun.
    destruct (jseqb (Buffer_toString_range b 0 6) (js "tBIN10")) eqn:E;
      [|reflexivity].
    apply magic_test in E. contradiction.
Qed.

Lemma presaveMap_tilemap_iff_witness :
  presaveMap (sample_platform []) (js "out/map.yaml")
    (tagged (js "Map")
       (VObj [(js "data",
               VBuf (minimal_segment (repeat x07 32) [x01; x02; x03]))]))
  = ([(js "out/map.tbin", minimal_output (repeat x07 32) [x01; x02; x03])],
     inl (tagged (js "Map")
            (VObj [(js "tileSheets", VArr [VStr (js "tiles.png")])]))).
Proof.
  destruct (presaveMap_tilemap_iff (sample_platform []) (js "out/map.yaml")
              [(js "type", VStr (js "Map"));
               (js "data",
                VObj [(js "data",
                       VBuf (minimal_segment (repeat x07 32)
                               [x01; x02; x03]))])]
              [(js "data",
                VBuf (minimal_segment (repeat x07 32) [x01; x02; x03]))]
              (minimal_segment (repeat x07 32) [x01; x02; x03])
              eq_refl eq_refl) as [Hyes _].
  destruct (Hyes eq_refl (minimal_output (repeat x07 32) [x01; x02; x03])
              [js "tiles.png"]) as [E _].
  - vm_compute. reflexivity.
  - exact E.
Defined.

(** ** A texture document, through both passes *)

(** [onPresave] on a texture document writes the one sidecar and leaves the
    payload with [format] alone; [onPostload], with that sidecar on disk,
    gives back the content the document had. *)
Example texture_document_roundtrip :
  onPresave (sample_platform []) (js "out/map.yaml") texture_document
  = ([(js "out/map..png", two_pixels_file)],
     inl {| content := Texture2D [(js "format", VNum 0)];
            extractedImages := Some [stripped []];
            other := [] |})
  /\ onPostload (sample_platform [(js "out/map..png", two_pixels_file)])
       (js "out/map.yaml")
       {| content := Texture2D [(js "format", VNum 0)];
          extractedImages := Some [stripped []];
          other := [] |}
     = inl {| content := content texture_document;
              extractedImages := Some [stripped []];
              other := [] |}.
Proof. split; vm_compute; reflexivity. Qed.

(** The tree of [in_items] never gets as far as [extractImages] in
    [onPresave]: its payload has no [data], and [extractMap] calls
    [toString] on [undefined]. *)
Example onPresave_in_items_throws :
  onPresave (sample_platform []) (js "out/map.yaml")
    {| content := in_items (Texture2D pixel_fields);
       extractedImages := None; other := [] |}
  = ([], inr TypeError).
Proof. vm_compute. reflexivity. Qed.

(** * Further properties *)

(** ** The transcoder: errors, pass-through, names *)

Lemma byte_of_Z_mod (z : Z) (b : byte) : z mod 256 = byteZ b -> byte_of_Z z = b.
Proof.
  intros E. unfold byte_of_Z. rewrite E. unfold byteZ.
  rewrite N2Z.id, Byte.of_to_N. reflexivity.
Qed.

Lemma byteZ_bounded (b : byte) : 0 <= byteZ b < 256.
Proof.
  unfold byteZ. pose proof (Byte.to_N_bounded b). lia.
Qed.

(** What [readInt32LE] read of four bytes, [writeInt32LE] writes back as
    these four bytes. *)
Lemma int32LE_readInt32LE (b0 b1 b2 b3 : byte) (v : Z) :
  readInt32LE [b0; b1; b2; b3] = inl v -> int32LE v = [b0; b1; b2; b3].
Proof.
  unfold readInt32LE.
  pose proof (byteZ_bounded b0). pose proof (byteZ_bounded b1).
  pose proof (byteZ_bounded b2). pose proof (byteZ_bounded b3).
  set (u := byteZ b0 + 256 * byteZ b1 + 65536 * byteZ b2
            + 16777216 * byteZ b3).
  intros E.
  assert (Hv : v = if u <? 2147483648 then u else u - 4294967296)
    by congruence.
  subst v. clear E.
  assert (Hu : 0 <= u < 4294967296) by (subst u; lia).
  assert (Hm : (if u <? 2147483648 then u else u - 4294967296)
               mod 4294967296 = u).
  { destruct (u <? 2147483648).
    - apply Z.mod_small. lia.
    - replace (u - 4294967296) with (u + (-1) * 4294967296) by lia.
      rewrite Z.mod_add by lia. apply Z.mod_small. lia. }
  unfold int32LE. cbv zeta. rewrite Hm.
  repeat f_equal; apply byte_of_Z_mod; subst u;
    Z.to_euclidean_division_equations; lia.
Qed.

Lemma consume_spec (n : Z) :
  returns_or_ReadError (consume n)
    (fun s bs s' =>
       out s' = out s /\ tileSheets s' = tileSheets s
       /\ reader.buffer (inp s) = bs ++ reader.buffer (inp s')
       /\ length bs = Z.to_nat n).
Proof.
  intros s. unfold consume, reader.consume.
  destruct (Z.ltb_spec (Z.of_nat (length (reader.buffer (inp s)))) n);
    [reflexivity|].
  cbn. repeat split.
  - symmetry. apply firstn_skipn.
  - apply firstn_length_le. lia.
Qed.

Lemma skipString_spec :
  returns_or_ReadError skipString
    (fun s _ s' => copied s s' /\ (remaining s' + 4 <= remaining s)%nat).
Proof.
  intros s. unfold skipString, bind.
  pose proof (consume_spec 4 s) as H1.
  destruct (consume 4 s) as [[len s1]|e]; [|exact H1].
  destruct H1 as (O1 & T1 & B1 & L1).
  destruct len as [|b0 [|b1 [|b2 [|b3 [|]]]]]; try discriminate L1.
  destruct (readInt32LE [b0; b1; b2; b3]) as [v|e] eqn:Ev; [|discriminate].
  cbn [lift ret out_writeInt32LE with_out].
  set (s2 := {| inp := inp s1; out := _; tileSheets := _ |}).
  pose proof (consume_spec v s2) as H3.
  destruct (consume v s2) as [[bs s3]|e]; [|exact H3].
  destruct H3 as (O3 & T3 & B3 & L3).
  unfold out_concat, with_out, copied, remaining. cbn.
  subst s2. cbn in *. rewrite O3, B1, B3, O1. cbn.
  rewrite (int32LE_readInt32LE _ _ _ _ _ Ev), length_app.
  repeat split; [|congruence|cbn; lia].
  rewrite <- !app_assoc. reflexivity.
Qed.

Lemma copy_bytes_spec (n : Z) :
  returns_or_ReadError (bind (consume n) (fun bs => out_concat bs))
    (fun s _ s' => copied s s' /\ (remaining s' <= remaining s)%nat).
Proof.
  intros s. unfold bind.
  pose proof (consume_spec n s) as H1.
  destruct (consume n s) as [[bs s1]|e]; [|exact H1].
  destruct H1 as (O1 & T1 & B1 & L1).
  unfold out_concat, with_out, copied, remaining. cbn.
  rewrite O1, B1, length_app, <- app_assoc. repeat split; auto; lia.
Qed.

Lemma skipString_copies :
  returns_or_ReadError skipString
    (fun s _ s' => copied s s' /\ (remaining s' <= remaining s)%nat).
Proof.
  intros s. pose proof (skipString_spec s) as H.
  destruct (skipString s) as [[[] s']|e]; [|exact H].
  destruct H as [? ?]. split; [assumption|lia].
Qed.

Lemma skipProperty_spec :
  returns_or_ReadError skipProperty
    (fun s _ s' => copied s s' /\ (remaining s' <= remaining s)%nat).
Proof.
  intros s. unfold skipProperty. unfold bind at 1.
  pose proof (skipString_spec s) as H1.
  destruct (skipString s) as [[[] s1]|e]; [|exact H1].
  destruct H1 as ((C1 & T1) & R1).
  unfold bind at 1.
  pose proof (consume_spec 1 s1) as H2.
  destruct (consume 1 s1) as [[ty s2]|e]; [|exact H2].
  destruct H2 as (O2 & T2 & B2 & L2).
  unfold bind at 1. unfold out_concat at 1, with_out.
  set (s3 := {| inp := inp s2; out := _; tileSheets := _ |}).
  assert (C3 : copied s s3 /\ (remaining s3 <= remaining s)%nat).
  { unfold copied, remaining in *. subst s3. cbn.
    rewrite <- C1, B2, O2, length_app, <- app_assoc in *.
    repeat split; [congruence|lia]. }
  assert (Hstep : forall m : M unit,
            returns_or_ReadError m
              (fun a _ b => copied a b /\ (remaining b <= remaining a)%nat) ->
            match m s3 with
            | inl (_, s') => copied s s' /\ (remaining s' <= remaining s)%nat
            | inr e => e = ReadError
            end).
  { intros m Hm. specialize (Hm s3). destruct (m s3) as [[[] s4]|e]; [|exact Hm].
    destruct C3 as ((C3 & T3) & R3). destruct Hm as ((C4 & T4) & R4).
    unfold copied. repeat split; [congruence|congruence|lia]. }
  repeat match goal with
         | |- match (match ?x with _ => _ end) _ with _ => _ end =>
             destruct x
         end;
    first [exact C3
          |apply Hstep; first [apply copy_bytes_spec|apply skipString_copies]].
Qed.

Lemma copied_trans (a b c : tstate) : copied a b -> copied b c -> copied a c.
Proof. unfold copied. intros [? ?] [? ?]. split; congruence. Qed.

Lemma repeatM_copies (body : M unit) (k : nat) :
  returns_or_ReadError body
    (fun s _ s' => copied s s' /\ (remaining s' <= remaining s)%nat) ->
  returns_or_ReadError (repeatM k body)
    (fun s _ s' => copied s s' /\ (remaining s' <= remaining s)%nat).
Proof.
  intros Hb. induction k as [|k IH]; intros s; cbn [repeatM].
  - cbn. unfold copied. auto.
  - unfold bind. specialize (Hb s).
    destruct (body s) as [[[] s1]|e]; [|exact Hb].
    specialize (IH s1). destruct (repeatM k body s1) as [[[] s2]|e];
      [|exact IH].
    destruct Hb as [C1 R1]. destruct IH as [C2 R2].
    split; [eapply copied_trans; eauto|lia].
Qed.

Lemma skipProperties_spec :
  returns_or_ReadError skipProperties
    (fun s _ s' => copied s s' /\ (remaining s' + 4 <= remaining s)%nat).
Proof.
  intros s. unfold skipProperties, bind.
  pose proof (consume_spec 4 s) as H1.
  destruct (consume 4 s) as [[len s1]|e]; [|exact H1].
  destruct H1 as (O1 & T1 & B1 & L1).
  destruct len as [|b0 [|b1 [|b2 [|b3 [|]]]]]; try discriminate L1.
  destruct (readInt32LE [b0; b1; b2; b3]) as [v|e] eqn:Ev; [|discriminate].
  cbn [lift ret out_writeInt32LE with_out].
  set (s2 := {| inp := inp s1; out := _; tileSheets := _ |}).
  assert (C2 : copied s s2 /\ (remaining s2 + 4 <= remaining s)%nat).
  { unfold copied, remaining. subst s2. cbn.
    rewrite (int32LE_readInt32LE _ _ _ _ _ Ev), O1, B1, <- app_assoc.
    cbn. repeat split; [assumption|lia]. }
  pose proof (repeatM_copies skipProperty (Z.to_nat v) skipProperty_spec s2)
    as H3.
  unfold while_countdown.
  destruct (repeatM (Z.to_nat v) skipProperty s2) as [[[] s3]|e]; [|exact H3].
  destruct C2 as [C2 R2]. destruct H3 as [C3 R3].
  split; [eapply copied_trans; eauto|lia].
Qed.

(** A turn of the tile sheet loop adds one name, which ends in [.png]. *)
Lemma tileSheet_spec :
  returns_or_ReadError tileSheet
    (fun s _ s' => exists name,
         tileSheets s' = tileSheets s ++ [name] /\ ends_in_png name).
Proof.
  intros s. unfold tileSheet. unfold bind at 1.
  pose proof (skipString_spec s) as H1.
  destruct (skipString s) as [[[] s1]|e]; [|exact H1].
  destruct H1 as [[_ T1] _].
  unfold bind at 1. pose proof (skipString_spec s1) as H2.
  destruct (skipString s1) as [[[] s2]|e]; [|exact H2].
  destruct H2 as [[_ T2] _]. unfold bind at 1.
  pose proof (consume_spec 4 s2) as H3.
  destruct (consume 4 s2) as [[len s3]|e]; [|exact H3].
  destruct H3 as (_ & T3 & _ & L3).
  destruct len as [|b0 [|b1 [|b2 [|b3 [|]]]]]; try discriminate L3.
  unfold bind at 1.
  destruct (readInt32LE [b0; b1; b2; b3]) as [v|e] eqn:Ev; [|discriminate].
  cbn [lift ret]. unfold bind at 1.
  pose proof (consume_spec v s3) as H4.
  destruct (consume v s3) as [[src s4]|e]; [|exact H4].
  destruct H4 as (_ & T4 & _ & _).
  cbv zeta. unfold bind at 1. cbn [push_tileSheet].
  unfold bind at 1. cbn [out_writeInt32LE with_out].
  unfold bind at 1. cbn [out_writeAscii with_out].
  set (s5 := {| inp := _; out := _; tileSheets := _ |}).
  assert (T5 : tileSheets s5
               = tileSheets s ++ [Buffer_toString src ++ js ".png"]).
  { subst s5. cbn [tileSheets]. rewrite T4, T3, T2, T1. reflexivity. }
  clearbody s5.
  unfold bind at 1.
  pose proof (copy_bytes_spec (4 * 2 * 4) s5) as H6. unfold bind in H6.
  unfold bind at 1.
  destruct (consume (4 * 2 * 4) s5) as [[bs s6]|e]; [|exact H6].
  destruct (out_concat bs s6) as [[[] s7]|e]; [|exact H6].
  destruct H6 as [[_ T7] _].
  pose proof (skipProperties_spec s7) as H8.
  destruct (skipProperties s7) as [[[] s8]|e]; [|exact H8].
  destruct H8 as [[_ T8] _].
  exists (Buffer_toString src ++ js ".png").
  split; [rewrite T8, T7, T5; reflexivity|].
  exists (Buffer_toString src). reflexivity.
Qed.

Lemma repeatM_tileSheets (k : nat) :
  returns_or_ReadError (repeatM k tileSheet)
    (fun s _ s' => exists names,
         tileSheets s' = tileSheets s ++ names
         /\ Forall ends_in_png names
         /\ length names = k
         /\ (k = O -> s' = s)).
Proof.
  induction k as [|k IH]; intros s; cbn [repeatM].
  - exists []. cbn. rewrite app_nil_r. auto.
  - unfold bind. pose proof (tileSheet_spec s) as H1.
    destruct (tileSheet s) as [[[] s1]|e]; [|exact H1].
    destruct H1 as (name & T1 & N1). specialize (IH s1).
    destruct (repeatM k tileSheet s1) as [[[] s2]|e]; [|exact IH].
    destruct IH as (names & T2 & N2 & L2 & _).
    exists (name :: names). repeat split.
    + rewrite T2, T1, <- app_assoc. reflexivity.
    + constructor; assumption.
    + cbn. congruence.
    + discriminate.
Qed.

(** The whole block: it needs 22 bytes at least; the names it collects end
    in [.png]; and if it collects none, the writer ends with all the bytes
    the cursor had. *)
Lemma transcodeM_spec :
  returns_or_ReadError transcodeM
    (fun s _ s' => exists names,
         tileSheets s' = tileSheets s ++ names
         /\ Forall ends_in_png names
         /\ (22 <= remaining s)%nat
         /\ (names = [] ->
             writer.buffer (out s')
             = writer.buffer (out s) ++ reader.buffer (inp s))).
Proof.
  intros s. unfold transcodeM. unfold bind at 1.
  pose proof (consume_spec 6 s) as H1.
  destruct (consume 6 s) as [[header s1]|e]; [|exact H1].
  destruct H1 as (O1 & T1 & B1 & L1).
  unfold bind at 1. cbn [out_concat with_out].
  set (s2 := {| inp := inp s1; out := _; tileSheets := _ |}).
  assert (C2 : copied s s2 /\ (remaining s2 + 6 <= remaining s)%nat).
  { unfold copied, remaining. subst s2. cbn.
    rewrite O1, B1, length_app, <- app_assoc. repeat split; [assumption|lia]. }
  clearbody s2. destruct C2 as [C2 R2].
  unfold bind at 1. pose proof (skipString_spec s2) as H3.
  destruct (skipString s2) as [[[] s3]|e]; [|exact H3].
  destruct H3 as [C3 R3].
  unfold bind at 1. pose proof (skipString_spec s3) as H4.
  destruct (skipString s3) as [[[] s4]|e]; [|exact H4].
  destruct H4 as [C4 R4].
  unfold bind at 1. pose proof (skipProperties_spec s4) as H5.
  destruct (skipProperties s4) as [[[] s5]|e]; [|exact H5].
  destruct H5 as [C5 R5].
  unfold bind at 1. pose proof (consume_spec 4 s5) as H6.
  destruct (consume 4 s5) as [[cnt s6]|e]; [|exact H6].
  destruct H6 as (O6 & T6 & B6 & L6).
  destruct cnt as [|b0 [|b1 [|b2 [|b3 [|]]]]]; try discriminate L6.
  unfold bind at 1.
  destruct (readInt32LE [b0; b1; b2; b3]) as [v|e] eqn:Ev; [|discriminate].
  cbn [lift ret]. unfold bind at 1. cbn [out_writeInt32LE with_out].
  set (s7 := {| inp := inp s6; out := _; tileSheets := _ |}).
  assert (C7 : copied s5 s7 /\ (remaining s7 + 4 <= remaining s5)%nat).
  { unfold copied, remaining. subst s7. cbn.
    rewrite (int32LE_readInt32LE _ _ _ _ _ Ev), O6, B6, <- app_assoc.
    cbn. repeat split; [assumption|lia]. }
  clearbody s7. destruct C7 as [C7 R7].
  assert (C : copied s s7).
  { apply (copied_trans s s2 s7 C2), (copied_trans s2 s3 s7 C3),
      (copied_trans s3 s4 s7 C4), (copied_trans s4 s5 s7 C5), C7. }
  unfold bind at 1, while_countdown.
  pose proof (repeatM_tileSheets (Z.to_nat v) s7) as H8.
  destruct (repeatM (Z.to_nat v) tileSheet s7) as [[[] s8]|e]; [|exact H8].
  destruct H8 as (names & T8 & N8 & L8 & Z8).
  cbn [out_concat with_out]. exists names. cbn [tileSheets out].
  destruct C as [Cb Ct]. repeat split.
  - congruence.
  - exact N8.
  - lia.
  - intros ->. cbn in L8. rewrite (Z8 (eq_sym L8)). cbn. exact Cb.
Qed.

(** The transcoder throws nothing but [ReadError], the error
    [readErrorWrapper] catches. *)
Theorem transcode_throws_only_ReadError (map : Buffer) (e : exn) :
  transcode map = inr e -> e = ReadError.
Proof.
  unfold transcode.
  pose proof (transcodeM_spec
                {| inp := reader.new map; out := writer.new;
                   tileSheets := [] |}) as H.
  destruct (transcodeM _) as [[[] s]|e']; [discriminate|].
  intros [= <-]. exact H.
Qed.

Lemma transcode_throws_only_ReadError_witness :
  transcode (ascii_bytes "tBIN10") = inr ReadError
  /\ ReadError = ReadError.
Proof.
  split; [vm_compute; reflexivity|].
  apply (transcode_throws_only_ReadError (ascii_bytes "tBIN10") ReadError).
  vm_compute. reflexivity.
Defined.

(** A segment of fewer than 22 bytes (the magic, two empty strings, no
    property, no tile sheet) is truncated: the transcoder throws
    [ReadError]. *)
Theorem transcode_truncated (map : Buffer) :
  (length map < 22)%nat -> transcode map = inr ReadError.
Proof.
  intros Hlen. unfold transcode.
  pose proof (transcodeM_spec
                {| inp := reader.new map; out := writer.new;
                   tileSheets := [] |}) as H.
  destruct (transcodeM _) as [[[] s]|e].
  - destruct H as (names & _ & _ & R & _). unfold remaining in R. cbn in R.
    lia.
  - rewrite H. reflexivity.
Qed.

Lemma transcode_truncated_witness :
  transcode (magic ++ lpstring [] ++ lpstring [] ++ int32LE 0) = inr ReadError.
Proof.
  apply (transcode_truncated (magic ++ lpstring [] ++ lpstring [] ++ int32LE 0)).
  vm_compute. lia.
Defined.

(** A segment the transcoder finds no tile sheet in comes out byte for byte
    as it went in, whatever follows the tile sheet count. *)
Theorem transcode_no_tileSheet_identity (map output : Buffer) :
  transcode map = inl (output, []) -> output = map.
Proof.
  unfold transcode.
  pose proof (transcodeM_spec
                {| inp := reader.new map; out := writer.new;
                   tileSheets := [] |}) as H.
  destruct (transcodeM _) as [[[] s]|e]; [|discriminate].
  destruct H as (names & T & _ & _ & Hid). cbn in T, Hid.
  intros [= <- Hn]. rewrite Hn in T. subst names. exact (Hid eq_refl).
Qed.

Lemma transcode_no_tileSheet_identity_witness :
  transcode unknown_tag_segment = inl (unknown_tag_segment, [])
  /\ unknown_tag_segment = unknown_tag_segment.
Proof.
  split; [vm_compute; reflexivity|].
  apply (transcode_no_tileSheet_identity unknown_tag_segment
           unknown_tag_segment).
  vm_compute. reflexivity.
Defined.

(** Every name the transcoder returns ends in [.png]. *)
Theorem transcode_names_end_in_png (map output : Buffer)
                                   (names : list jsstring) :
  transcode map = inl (output, names) -> Forall ends_in_png names.
Proof.
  unfold transcode.
  pose proof (transcodeM_spec
                {| inp := reader.new map; out := writer.new;
                   tileSheets := [] |}) as H.
  destruct (transcodeM _) as [[[] s]|e]; [|discriminate].
  destruct H as (ns & T & N & _). cbn in T.
  intros [= _ <-]. rewrite T. exact N.
Qed.

Lemma transcode_names_end_in_png_witness :
  Forall ends_in_png [js "tiles.png"].
Proof.
  apply (transcode_names_end_in_png
           (minimal_segment (repeat x07 32) [x01; x02; x03])
           (minimal_output (repeat x07 32) [x01; x02; x03])
           [js "tiles.png"]).
  vm_compute. reflexivity.
Defined.

(** ** The save-side pass: missing fields, untouched trees, errors *)

(** A content whose payload holds nothing under [data] (any asset that is
    neither a tilemap nor a texture at its root) makes [onPresave] throw a
    [TypeError] before it writes any file: [extractMap] calls [toString] on
    what it read there. *)
Theorem onPresave_without_data_throws (P : platform) (outputFile : jsstring)
                                      (data : Document) (payload blob : value) :
  get (content data) (js "data") = inl payload ->
  get payload (js "data") = inl blob ->
  blob = VUndefined \/ blob = VNull ->
  onPresave P outputFile data = ([], inr TypeError).
Proof.
  intros Hp Hb Hblob. unfold onPresave, presaveMap, extractMap.
  rewrite Hp, Hb. destruct Hblob as [-> | ->]; reflexivity.
Qed.

Lemma onPresave_without_data_throws_witness :
  onPresave (sample_platform []) (js "out/map.yaml")
    {| content := tagged (js "Dictionary")
                    (VObj [(js "greeting", VStr (js "hello"))]);
       extractedImages := None; other := [] |}
  = ([], inr TypeError).
Proof.
  apply (onPresave_without_data_throws (sample_platform [])
           (js "out/map.yaml") _
           (VObj [(js "greeting", VStr (js "hello"))]) VUndefined).
  - reflexivity.
  - reflexivity.
  - left. reflexivity.
Defined.

Lemma extractElems_nothing
    (rec : value -> jsstring -> result (list value * value))
    (path : jsstring) (l : list value) :
  Forall (fun x => forall p x', rec x p = inl ([], x') -> x' = x) l ->
  forall i l', extractElems rec path l i = inl ([], l') -> l' = l.
Proof.
  induction 1 as [|x l Hx _ IH]; intros i l'; cbn [extractElems].
  - intros [= <-]. reflexivity.
  - destruct (rec x _) as [[imgs x']|e] eqn:Ex; [|discriminate].
    destruct (extractElems rec path l (S i)) as [[imgs' l'']|e] eqn:El;
      [|discriminate].
    intros [= Himgs <-]. apply app_eq_nil in Himgs. destruct Himgs as [-> ->].
    f_equal; [eapply Hx; exact Ex|eapply IH; exact El].
Qed.

Lemma extractFields_nothing
    (rec : value -> jsstring -> result (list value * value))
    (visit : jsstring -> option jsstring) (fs : fields_t) :
  Forall (fun kv => forall p x', rec (snd kv) p = inl ([], x') -> x' = snd kv)
         fs ->
  forall fs', extractFields rec visit fs = inl ([], fs') -> fs' = fs.
Proof.
  induction 1 as [|[k x] fs Hx _ IH]; intros fs'; cbn [extractFields].
  - intros [= <-]. reflexivity.
  - destruct (match visit k with Some p => rec x p | None => inl ([], x) end)
      as [[imgs x']|e] eqn:Ex; [|discriminate].
    destruct (extractFields rec visit fs) as [[imgs' fs'']|e] eqn:El;
      [|discriminate].
    intros [= Himgs <-]. apply app_eq_nil in Himgs. destruct Himgs as [-> ->].
    f_equal; [|apply IH; reflexivity]. f_equal.
    destruct (visit k) as [p|]; [eapply Hx; exact Ex|congruence].
Qed.

(** A traversal that returns no placeholder has changed nothing in the
    tree. *)
Theorem extractImages_nothing_found_unchanged (object : value) :
  forall (path : jsstring) (object' : value),
    extractImages object path = inl ([], object') -> object' = object.
Proof.
  induction object as [v Hv|l IH|fs IH] using value_ind'; intros path o'.
  - destruct v; try discriminate Hv; intros [= <-]; reflexivity.
  - cbn [extractImages].
    destruct (extractElems extractImages (dotted path) l 0)
      as [[imgs l']|e] eqn:E; [|discriminate].
    intros [= -> <-]. f_equal. eapply extractElems_nothing; eauto.
  - cbn [extractImages]. destruct (isTypeObject (VObj fs)).
    + destruct (loose_eq_string _ _) as [[|]|e]; [| |discriminate].
      * unfold extractTexture.
        destruct (get (VObj fs) (js "data")) as [payload|e]; [|discriminate].
        destruct (get payload (js "data")) as [d|e]; [|discriminate].
        destruct (get payload (js "width")) as [w|e]; [|discriminate].
        destruct (get payload (js "height")) as [h|e]; [|discriminate].
        destruct (delete payload (js "data")) as [p1|e]; [|discriminate].
        destruct (delete p1 (js "width")) as [p2|e]; [|discriminate].
        destruct (delete p2 (js "height")) as [p3|e]; discriminate.
      * destruct (extractFields extractImages _ fs) as [[imgs fs']|e] eqn:E;
          [|discriminate].
        intros [= -> <-]. f_equal. eapply extractFields_nothing; eauto.
    + destruct (extractFields extractImages _ fs) as [[imgs fs']|e] eqn:E;
        [|discriminate].
      intros [= -> <-]. f_equal. eapply extractFields_nothing; eauto.
Qed.

Lemma extractImages_nothing_found_unchanged_witness :
  VObj [(js "items", VArr [VNum 1; VStr (js "a")])]
  = VObj [(js "items", VArr [VNum 1; VStr (js "a")])].
Proof.
  symmetry.
  apply (extractImages_nothing_found_unchanged
           (VObj [(js "items", VArr [VNum 1; VStr (js "a")])]) (js "p")
           (VObj [(js "items", VArr [VNum 1; VStr (js "a")])])).
  vm_compute. reflexivity.
Defined.

Lemma get_throws_TypeError (o : value) (k : jsstring) (e : exn) :
  get o k = inr e -> e = TypeError.
Proof.
  destruct o; cbn [get]; try discriminate; try congruence;
    destruct (jseqb k (js "length")); discriminate.
Qed.

Lemma delete_throws_TypeError (o : value) (k : jsstring) (e : exn) :
  delete o k = inr e -> e = TypeError.
Proof. destruct o; cbn [delete]; try discriminate; congruence. Qed.

Lemma set_throws_TypeError (o : value) (k : jsstring) (v : value) (e : exn) :
  set o k v = inr e -> e = TypeError.
Proof. destruct o; cbn [set]; try discriminate; congruence. Qed.

(** [join] on an array, one element at a time. *)
Lemma ToString_cons (x : value) (l : list value) :
  ToString (VArr (x :: l))
  = s <- match x with
         | VUndefined | VNull => inl []
         | _ => ToString x
         end ;;
    match l with
    | [] => inl s
    | _ :: _ => r <- ToString (VArr l) ;; inl (s ++ 44%N :: r)
    end.
Proof. destruct l; reflexivity. Qed.

Lemma ToString_throws_TypeError (v : value) :
  forall e, ToString v = inr e -> e = TypeError.
Proof.
  induction v as [v Hv|l IH|fs _] using value_ind'; intros e.
  - destruct v; try discriminate Hv; cbn [ToString]; try discriminate.
    destruct b; discriminate.
  - revert e. induction IH as [|x l Hx _ IHl]; intros e; [discriminate|].
    rewrite ToString_cons.
    assert (Hsx : forall e0,
              match x with
              | VUndefined | VNull => inl []
              | _ => ToString x
              end = inr e0 -> e0 = TypeError).
    { destruct x; try discriminate; exact Hx. }
    destruct (match x with VUndefined | VNull => inl [] | _ => ToString x end)
      as [sx|ex]; [|intros [= <-]; apply Hsx; reflexivity].
    destruct l as [|y l]; [discriminate|].
    destruct (ToString (VArr (y :: l))) as [r|er]; [discriminate|].
    intros [= <-]. apply IHl. reflexivity.
  - cbn [ToString]. destruct (has_key (js "toString") fs); [congruence|].
    discriminate.
Qed.

Lemma loose_eq_string_throws_TypeError (v : value) (s : jsstring) (e : exn) :
  loose_eq_string v s = inr e -> e = TypeError.
Proof.
  destruct v; cbn [loose_eq_string]; try discriminate;
    match goal with
    | |- context [ToString ?x] =>
        pose proof (ToString_throws_TypeError x) as H;
        destruct (ToString x); [discriminate|];
        intros [= <-]; apply H; reflexivity
    end.
Qed.

Lemma extractElems_throws (T : exn)
    (rec : value -> jsstring -> result (list value * value))
    (path : jsstring) (l : list value) :
  Forall (fun x => forall p e, rec x p = inr e -> e = T) l ->
  forall i e, extractElems rec path l i = inr e -> e = T.
Proof.
  induction 1 as [|x l Hx _ IH]; intros i e; cbn [extractElems];
    [discriminate|].
  destruct (rec x _) as [[imgs x']|ex] eqn:Ex;
    [|intros [= <-]; eapply Hx; exact Ex].
  destruct (extractElems rec path l (S i)) as [[imgs' l'']|el] eqn:El;
    [discriminate|].
  intros [= <-]. eapply IH. exact El.
Qed.

Lemma extractFields_throws (T : exn)
    (rec : value -> jsstring -> result (list value * value))
    (visit : jsstring -> option jsstring) (fs : fields_t) :
  Forall (fun kv => forall p e, rec (snd kv) p = inr e -> e = T) fs ->
  forall e, extractFields rec visit fs = inr e -> e = T.
Proof.
  induction 1 as [|[k x] fs Hx _ IH]; intros e; cbn [extractFields];
    [discriminate|].
  destruct (match visit k with Some p => rec x p | None => inl ([], x) end)
    as [[imgs x']|ex] eqn:Ex.
  - destruct (extractFields rec visit fs) as [[imgs' fs'']|el] eqn:El;
      [discriminate|].
    intros [= <-]. apply IH. reflexivity.
  - intros [= <-]. destruct (visit k) as [p|]; [|discriminate].
    eapply Hx. exact Ex.
Qed.

Lemma extractImages_throws (object : value) :
  forall (path : jsstring) (e : exn),
    extractImages object path = inr e -> e = TypeError.
Proof.
  induction object as [v Hv|l IH|fs IH] using value_ind'; intros path e.
  - destruct v; try discriminate Hv; discriminate.
  - cbn [extractImages].
    destruct (extractElems extractImages (dotted path) l 0)
      as [[imgs l']|el] eqn:E; [discriminate|].
    intros [= <-]. eapply extractElems_throws; eauto.
  - cbn [extractImages]. destruct (isTypeObject (VObj fs)).
    + destruct (loose_eq_string _ _) as [[|]|el] eqn:El.
      * unfold extractTexture.
        repeat match goal with
               | |- match ?x with inl _ => _ | inr _ => _ end = inr _ -> _ =>
                   let E := fresh "E" in
                   destruct x eqn:E;
                   [|intros [= <-];
                     first [eapply get_throws_TypeError; exact E
                           |eapply delete_throws_TypeError; exact E]]
               end.
        discriminate.
      * destruct (extractFields extractImages _ fs) as [[imgs fs']|ef] eqn:E;
          [discriminate|].
        intros [= <-]. eapply extractFields_throws; eauto.
      * intros [= <-]. eapply loose_eq_string_throws_TypeError. exact El.
    + destruct (extractFields extractImages _ fs) as [[imgs fs']|ef] eqn:E;
        [discriminate|].
      intros [= <-]. eapply extractFields_throws; eauto.
Qed.

(** The traversal never throws [ReadError], the one error
    [readErrorWrapper] swallows: no failure of the traversal is passed over
    in silence by the batch driver. *)
Theorem extractImages_never_ReadError (object : value) (path : jsstring) :
  extractImages object path <> inr ReadError.
Proof.
  intros Hthrow. apply extractImages_throws in Hthrow. discriminate.
Qed.

(** ** The batch driver: what a run survives and what it skips *)

Lemma readErrorWrapper_never_ReadError (world : Type) (fn : job world)
    (input output : jsstring) (w : world) :
  snd (readErrorWrapper fn input output w) <> inr ReadError.
Proof.
  unfold readErrorWrapper. destruct (fn input output w) as [w' [r|e]].
  - discriminate.
  - destruct e; cbn; discriminate.
Qed.

(** A walk whose jobs throw nothing but [ReadError] runs the handler on
    every file, in order, each from the world the one before left, and
    returns, whatever the number of files that failed. *)
Theorem walkFiles_survives_ReadErrors (world : Type) (P : platform)
    (H : host world) (quiet : bool) (fn : job world)
    (input output : jsstring) (files : list (jsstring * jsstring)) :
  (forall src dst w0 w1 e, fn src dst w0 = (w1, inr e) -> e = ReadError) ->
  forall w,
    walkFiles P H quiet (readErrorWrapper fn) input output files w
    = (fold_left (fun w0 file =>
                    fst (onFile P H quiet fn input output
                                (fst file) (snd file) w0))
                 files w,
       inl tt).
Proof.
  intros Hfn. induction files as [|[root name] files IH]; intros w;
    [reflexivity|].
  cbn [walkFiles fold_left fst snd]. unfold onFile.
  destruct (negb _ && negb _); [apply IH|].
  unfold readErrorWrapper at 1.
  destruct (fn _ _ _) as [w' [r|e]] eqn:E; cbn [fst]; [apply IH|].
  rewrite (Hfn _ _ _ _ _ E). cbn [is_ReadError]. apply IH.
Qed.

Lemma walkFiles_survives_ReadErrors_witness :
  walkFiles (sample_platform []) sample_host true
    (readErrorWrapper sample_job) (js "in") (js "out")
    [(js "in", js "a.xnb"); (js "in", js "notes.txt"); (js "in", js "b.xnb")]
    []
  = (fold_left (fun w0 file =>
                  fst (onFile (sample_platform []) sample_host true sample_job
                              (js "in") (js "out") (fst file) (snd file) w0))
               [(js "in", js "a.xnb"); (js "in", js "notes.txt");
                (js "in", js "b.xnb")] [],
     inl tt).
Proof.
  apply (walkFiles_survives_ReadErrors (list jsstring) (sample_platform [])
           sample_host true sample_job (js "in") (js "out")
           [(js "in", js "a.xnb"); (js "in", js "notes.txt");
            (js "in", js "b.xnb")]).
  intros src dst w0 w1 e. unfold sample_job.
  destruct (jseqb src (js "in/a.xnb")); [congruence|discriminate].
Defined.

Lemma walkFiles_never_ReadError (world : Type) (P : platform) (H : host world)
    (quiet : bool) (fn : job world) (input output : jsstring)
    (files : list (jsstring * jsstring)) :
  forall w,
    snd (walkFiles P H quiet (readErrorWrapper fn) input output files w)
    <> inr ReadError.
Proof.
  induction files as [|[root name] files IH]; intros w; [discriminate|].
  cbn [walkFiles]. unfold onFile.
  destruct (negb _ && negb _); [apply IH|].
  pose proof (readErrorWrapper_never_ReadError world fn
                (path_join P root name)
                (path_join P (String_replace H root input output)
                   (path_basename P name
                      (String_toLowerCase H (path_extname P name))
                    ++ (if jseqb (String_toLowerCase H (path_extname P name))
                                 (js ".xnb")
                        then js ".yaml" else js ".xnb")))
                (if quiet then w
                 else console_log H (path_join P root name) w)) as Hw.
  destruct (readErrorWrapper fn _ _ _) as [w' [r|e]]; [apply IH|exact Hw].
Qed.

(** [applyOrRecurse] lets no [ReadError] of a job out, on a file or on a
    directory: if [fs.statSync] throws none, the call throws none. *)
Theorem applyOrRecurse_never_ReadError (world : Type) (P : platform)
    (H : host world) (quiet : bool) (fn : job world)
    (input output : jsstring) (w : world) :
  fs_statSync H input w <> inr ReadError ->
  snd (applyOrRecurse P H quiet fn input output w) <> inr ReadError.
Proof.
  intros Hstat. unfold applyOrRecurse.
  destruct (fs_statSync H input w) as [st|e].
  - destruct (isFile st); [apply readErrorWrapper_never_ReadError|].
    destruct (isDirectory st); [apply walkFiles_never_ReadError|discriminate].
  - destruct e; try discriminate; [congruence|].
    destruct (jseqb code (js "ENOENT")); discriminate.
Qed.

Lemma applyOrRecurse_never_ReadError_witness :
  snd (applyOrRecurse (sample_platform []) sample_host true sample_job
         (js "in") (js "out") [])
  <> inr ReadError.
Proof.
  apply (applyOrRecurse_never_ReadError (list jsstring) (sample_platform [])
           sample_host true sample_job (js "in") (js "out") []).
  discriminate.
Defined.

(** The walk passes over the files that are not convertible: it is the walk
    over the convertible ones. *)
Theorem walkFiles_skips_other_files (world : Type) (P : platform)
    (H : host world) (quiet : bool) (fn : job world)
    (input output : jsstring) (files : list (jsstring * jsstring)) :
  forall w,
    walkFiles P H quiet fn input output files w
    = walkFiles P H quiet fn input output (filter (convertible P H) files) w.
Proof.
  induction files as [|[root name] files IH]; intros w; [reflexivity|].
  cbn [walkFiles filter]. unfold convertible at 1, onFile. cbn [snd].
  destruct (jseqb (String_toLowerCase H (path_extname P name)) (js ".xnb"))
    eqn:Ex;
    [|destruct (jseqb (String_toLowerCase H (path_extname P name))
                      (js ".yaml")) eqn:Ey];
    cbn [negb andb orb].
  - cbn [walkFiles]. unfold onFile. rewrite Ex. cbn [negb andb].
    destruct (fn _ _ _) as [w' [r|e]]; [apply IH|reflexivity].
  - cbn [walkFiles]. unfold onFile. rewrite Ex, Ey. cbn [negb andb].
    destruct (fn _ _ _) as [w' [r|e]]; [apply IH|reflexivity].
  - apply IH.
Qed.

(** ** [extractXnb]: a [ReadError] leaves no file behind *)

Lemma writeImages_never_ReadError (P : platform) (outputFile : jsstring)
                                  (images : list value) :
  (forall p, PNG_sync_write P p <> inr ReadError) ->
  snd (writeImages P outputFile images) <> inr ReadError.
Proof.
  intros Hpng. induction images as [|image images IH]; [discriminate|].
  cbn [writeImages].
  repeat match goal with
         | |- snd (match (match ?x with inl _ => _ | inr _ => _ end)
                   with _ => _ end) <> _ =>
             let E := fresh "E" in
             destruct x eqn:E;
             [|cbn; intros [= Hr]; subst;
               first [apply get_throws_TypeError in E
                     |apply delete_throws_TypeError in E
                     |eapply Hpng; exact E
                     |idtac]; try discriminate]
         end.
  - destruct (writeImages P outputFile images) as [ws [r|e]]; cbn in *;
      [discriminate|exact IH].
  - unfold getImageName in E0.
    pose proof (ToString_throws_TypeError v) as Ht.
    destruct (ToString v); [discriminate|].
    injection E0 as ->. specialize (Ht _ eq_refl). discriminate.
Qed.

(** When [onPresave] throws [ReadError] it has written nothing: the error
    comes from the cursor, before the [.tbin] file is written. *)
Lemma onPresave_ReadError_writes_nothing (P : platform) (outputFile : jsstring)
    (data : Document) (ws : list file_write) :
  (forall p, PNG_sync_write P p <> inr ReadError) ->
  onPresave P outputFile data = (ws, inr ReadError) -> ws = [].
Proof.
  intros Hpng. unfold onPresave.
  destruct (presaveMap P outputFile (content data)) as [w1 r1] eqn:Em.
  destruct r1 as [content2|e1].
  - destruct (extractImages content2 []) as [[images content3]|e] eqn:Ex.
    + pose proof (writeImages_never_ReadError P outputFile images Hpng) as Hw.
      destruct (writeImages P outputFile images) as [w2 [r|e]]; cbn in Hw;
        [discriminate|].
      intros [= _ ->]. congruence.
    + intros [= _ ->]. apply extractImages_throws in Ex.
      discriminate.
  - intros [= <- ->]. unfold presaveMap in Em.
    destruct (extractMap (content data)) as [[map content1]|e]; [|congruence].
    destruct map; try (cbn in Em; congruence).
    cbn [transcodeMap] in Em. destruct (transcode b) as [[bytes names]|e];
      [|congruence].
    injection Em as _ Em.
    destruct (get content1 (js "data")) as [payload|e] eqn:Eg;
      [|apply get_throws_TypeError in Eg; congruence].
    destruct (set payload _ _) as [payload'|e] eqn:Es;
      [discriminate|apply set_throws_TypeError in Es; congruence].
Qed.

(** If the PNG encoder and the text codec throw no [ReadError] of their own,
    an [extractXnb] that throws [ReadError] has written no file, neither
    sidecar nor output; wrapped, the job returns with the log as it was. *)
Theorem extractXnb_ReadError_writes_nothing (C : codecs) (P : platform)
    (inputFile outputFile : jsstring) (w w' : list file_write) :
  (forall p, PNG_sync_write P p <> inr ReadError) ->
  (forall d n, typeyaml_stringify C d n <> inr ReadError) ->
  extractXnb C P inputFile outputFile w = (w', inr ReadError) ->
  w' = w
  /\ readErrorWrapper (extractXnb C P) inputFile outputFile w = (w, inl tt).
Proof.
  intros Hpng Hyaml Hrun.
  assert (Hw : w' = w).
  { unfold extractXnb in Hrun.
    destruct (fs_readFileSync P inputFile) as [buf|e]; [|congruence].
    destruct (XnbToObject C buf) as [data|e]; [|congruence].
    destruct (onPresave P outputFile data) as [ws [data'|e]] eqn:Ep.
    - destruct (typeyaml_stringify C data' 4) as [text|e] eqn:Ey;
        [discriminate|].
      injection Hrun as _ ->. exfalso. exact (Hyaml _ _ Ey).
    - injection Hrun as <- ->.
      rewrite (onPresave_ReadError_writes_nothing P outputFile data ws Hpng Ep).
      apply app_nil_r. }
  split; [exact Hw|]. subst w'. unfold readErrorWrapper. rewrite Hrun.
  reflexivity.
Qed.

Lemma extractXnb_ReadError_writes_nothing_witness :
  readErrorWrapper
    (extractXnb
       {| XnbToObject := fun b =>
            inl {| content := tagged (js "Map") (VObj [(js "data", VBuf b)]);
                   extractedImages := None; other := [] |};
          typeyaml_stringify := fun _ _ => inl [];
          utf8_encode := fun _ => [] |}
       (sample_platform [(js "in/map.xnb", magic)]))
    (js "in/map.xnb") (js "out/map.yaml") []
  = ([], inl tt).
Proof.
  apply (extractXnb_ReadError_writes_nothing
           {| XnbToObject := fun b =>
                inl {| content := tagged (js "Map")
                                    (VObj [(js "data", VBuf b)]);
                       extractedImages := None; other := [] |};
              typeyaml_stringify := fun _ _ => inl [];
              utf8_encode := fun _ => [] |}
           (sample_platform [(js "in/map.xnb", magic)])
           (js "in/map.xnb") (js "out/map.yaml") [] []).
  - intros p. cbn. destruct (png_width p), (png_height p), (png_data p);
      discriminate.
  - discriminate.
  - vm_compute. reflexivity.
Defined.

(** ** Array indices: the decimal rendering read back *)

Lemma js_String (c : ascii) (s : string) :
  js (String c s) = N_of_ascii c :: js s.
Proof. reflexivity. Qed.

(** Evaluates [digit] on the character at hand. *)
Ltac eval_digit :=
  match goal with
  | |- context [digit (N_of_ascii ?c)] =>
      let v := eval vm_compute in (digit (N_of_ascii c)) in
      change (digit (N_of_ascii c)) with v
  end.

Lemma digits_pos (d : Decimal.uint) :
  forall p : positive,
    digits (N.pos p) (js (NilEmpty.string_of_uint d))
    = Some (N.pos (Pos.of_uint_acc d p)).
Proof.
  induction d as [|d IH|d IH|d IH|d IH|d IH|d IH|d IH|d IH|d IH|d IH];
    intros p; [reflexivity|..];
    cbn [NilEmpty.string_of_uint Pos.of_uint_acc];
    rewrite js_String; cbn [digits]; eval_digit; cbv iota;
    rewrite <- IH; f_equal; lia.
Qed.

Lemma digits_zero (d : Decimal.uint) :
  digits 0 (js (NilEmpty.string_of_uint d)) = Some (Pos.of_uint d).
Proof.
  induction d as [|d IH|d IH|d IH|d IH|d IH|d IH|d IH|d IH|d IH|d IH];
    [reflexivity|..];
    cbn [NilEmpty.string_of_uint Pos.of_uint];
    rewrite js_String; cbn [digits]; eval_digit; cbv iota;
    first [exact IH|apply digits_pos].
Qed.

Lemma digit_chars (d : Decimal.uint) :
  Forall (fun c => (48 <= c <= 57)%N) (js (NilEmpty.string_of_uint d)).
Proof.
  induction d as [|d IH|d IH|d IH|d IH|d IH|d IH|d IH|d IH|d IH|d IH];
    [constructor|..];
    cbn [NilEmpty.string_of_uint]; rewrite js_String;
    (constructor; [vm_compute; split; discriminate|exact IH]).
Qed.

Lemma NilZero_NilEmpty (d : Decimal.uint) :
  d <> Decimal.Nil ->
  NilZero.string_of_uint d = NilEmpty.string_of_uint d.
Proof. destruct d; [congruence|reflexivity..]. Qed.

Lemma N_to_uint_nonnil (n : N) : N.to_uint n <> Decimal.Nil.
Proof.
  destruct n; [discriminate|]. apply DecimalPos.Unsigned.to_uint_nonnil.
Qed.

Lemma js_of_N_chars (n : N) :
  js_of_N n <> [] /\ Forall (fun c => (48 <= c <= 57)%N) (js_of_N n).
Proof.
  unfold js_of_N. rewrite NilZero_NilEmpty by apply N_to_uint_nonnil.
  split; [|apply digit_chars].
  pose proof (N_to_uint_nonnil n) as Hn.
  destruct (N.to_uint n); [congruence|..]; discriminate.
Qed.

(** The rendering of an index reads back as that index. *)
Lemma array_index_js_of_N (n : N) : array_index (js_of_N n) = Some n.
Proof.
  destruct (js_of_N_chars n) as [Hne _]. unfold array_index.
  destruct (js_of_N n) as [|c s] eqn:E; [congruence|]. rewrite <- E.
  unfold js_of_N at 1. rewrite NilZero_NilEmpty by apply N_to_uint_nonnil.
  rewrite digits_zero.
  change (Pos.of_uint (N.to_uint n)) with (N.of_uint (N.to_uint n)).
  rewrite DecimalN.Unsigned.of_to, jseqb_refl. reflexivity.
Qed.

Lemma of_lu_N_nat (d : Decimal.uint) :
  N.to_nat (DecimalPos.Unsigned.of_lu d) = DecimalNat.Unsigned.of_lu d.
Proof.
  induction d; cbn [DecimalPos.Unsigned.of_lu DecimalNat.Unsigned.of_lu];
    lia.
Qed.

Lemma js_of_nat_js_of_N (i : nat) : js_of_nat i = js_of_N (N.of_nat i).
Proof.
  unfold js_of_nat, js_of_N. do 2 f_equal.
  assert (E : N.of_uint (Nat.to_uint i) = N.of_nat i).
  { apply N2Nat.inj. rewrite Nat2N.id. unfold N.of_uint.
    rewrite DecimalPos.Unsigned.of_uint_alt, of_lu_N_nat,
      <- DecimalNat.Unsigned.of_uint_alt.
    apply DecimalNat.Unsigned.of_to. }
  rewrite <- E, DecimalN.Unsigned.to_of.
  rewrite <- DecimalNat.Unsigned.to_of, DecimalNat.Unsigned.of_to.
  reflexivity.
Qed.

(** ** Recorded paths lead back to their textures *)

Lemma split_dot_segment (k : jsstring) : ~ In dot k -> split_dot k = [k].
Proof.
  induction k as [|c k IH]; intros Hk; [reflexivity|]. cbn [split_dot].
  destruct (N.eqb_spec c dot) as [->|_]; [exfalso; apply Hk; left; reflexivity|].
  rewrite IH; [reflexivity|]. intros Hin. apply Hk. right. exact Hin.
Qed.

Lemma split_dot_app (k r : jsstring) :
  ~ In dot k -> split_dot (k ++ dot :: r) = k :: split_dot r.
Proof.
  induction k as [|c k IH]; intros Hk; cbn [app split_dot].
  - rewrite N.eqb_refl. reflexivity.
  - destruct (N.eqb_spec c dot) as [->|_];
      [exfalso; apply Hk; left; reflexivity|].
    rewrite IH; [reflexivity|]. intros Hin. apply Hk. right. exact Hin.
Qed.

Lemma extend_segment (k rel : jsstring) :
  k <> [] ->
  extend k rel = match rel with [] => k | _ => k ++ dot :: rel end.
Proof.
  intros Hk. destruct rel as [|c r]; [reflexivity|]. unfold extend, dotted.
  destruct k; [congruence|]. cbn [js_truthy]. rewrite <- app_assoc.
  reflexivity.
Qed.


Lemma dotted_nonempty (p : jsstring) : p <> [] -> dotted p = p ++ [dot].
Proof. destruct p; [congruence|reflexivity]. Qed.

Lemma extend_assoc (q k rel : jsstring) :
  k <> [] -> extend q (extend k rel) = extend (dotted q ++ k) rel.
Proof.
  intros Hk. rewrite (extend_segment k rel Hk).
  destruct rel as [|c r].
  - unfold extend. destruct k; [congruence|]. reflexivity.
  - assert (Hne : dotted q ++ k <> []).
    { destruct k; [congruence|]. destruct (dotted q); discriminate. }
    unfold extend. rewrite (dotted_nonempty _ Hne).
    destruct k as [|k0 k]; [congruence|]. cbn [app].
    rewrite <- !app_assoc. reflexivity.
Qed.



Lemma has_key_keys (k : jsstring) (fs fs' : fields_t) :
  List.map fst fs' = List.map fst fs -> has_key k fs' = has_key k fs.
Proof.
  unfold has_key. revert fs'.
  induction fs as [|[k0 v0] fs IH]; intros [|[k1 v1] fs']; cbn;
    try discriminate; [reflexivity|].
  intros [= -> Hk]. destruct (jseqb k k0); [reflexivity|]. apply IH. exact Hk.
Qed.

Lemma isTypeObject_keys (fs fs' : fields_t) :
  List.map fst fs' = List.map fst fs ->
  isTypeObject (VObj fs') = isTypeObject (VObj fs).
Proof.
  intros Hk. cbn [isTypeObject].
  rewrite !(has_key_keys _ fs fs' Hk).
  rewrite <- (length_map fst fs'), Hk, length_map. reflexivity.
Qed.

Lemma put_keys (k : jsstring) (v v0 : value) (fs : fields_t) :
  lookup k fs = Some v0 -> List.map fst (put k v fs) = List.map fst fs.
Proof.
  induction fs as [|[k' v'] fs IH]; cbn [lookup put]; [discriminate|].
  destruct (jseqb k k') eqn:E.
  - intros _. apply jseqb_eq in E. subst k'. reflexivity.
  - intros Hl. cbn [List.map fst]. rewrite IH by exact Hl. reflexivity.
Qed.

Lemma isTypeObject_strip3 (payload : value) :
  isTypeObject (strip3 payload) = false.
Proof.
  destruct payload; try reflexivity. cbn [strip3].
  apply isTypeObject_no_data. rewrite lookup_strip3, jseqb_refl. reflexivity.
Qed.


Lemma segment_ok_js_of_nat (i : nat) : segment_ok (js_of_nat i).
Proof.
  rewrite js_of_nat_js_of_N.
  destruct (js_of_N_chars (N.of_nat i)) as [Hne Hall].
  split; [exact Hne|]. intros Hin.
  rewrite Forall_forall in Hall. specialize (Hall _ Hin). unfold dot in Hall.
  lia.
Qed.

Lemma get_array_element (l : list value) (j : nat) (x : value) :
  nth_error l j = Some x -> get (VArr l) (js_of_nat j) = inl x.
Proof.
  intros Hn. cbn [get].
  assert (Hlen : jseqb (js_of_nat j) (js "length") = false).
  { apply jseqb_neq. intros E. rewrite js_of_nat_js_of_N in E.
    destruct (js_of_N_chars (N.of_nat j)) as [_ Hall]. rewrite E in Hall.
    inversion Hall as [|c s Hc _]; subst. vm_compute in Hc.
    destruct Hc as [_ Hc]. apply Hc. reflexivity. }
  rewrite Hlen, js_of_nat_js_of_N, array_index_js_of_N. unfold nth_N.
  assert (Hj : (j < length l)%nat) by (apply nth_error_Some; congruence).
  destruct (N.ltb_spec (N.of_nat j) (N.of_nat (length l))); [|lia].
  rewrite Nat2N.id, Hn. reflexivity.
Qed.



(** The [Texture2D] branch, when it returns. *)
Lemma extractTexture_returns (fs : fields_t) (path : jsstring)
                             (images : list value) (t' : value) :
  extractTexture (VObj fs) path = inl (images, t') ->
  exists payload data width height,
    lookup (js "data") fs = Some payload
    /\ get payload (js "data") = inl data
    /\ get payload (js "width") = inl width
    /\ get payload (js "height") = inl height
    /\ images = [placeholder data width height path]
    /\ t' = VObj (put (js "data") (strip3 payload) fs).
Proof.
  unfold extractTexture. cbn [get].
  destruct (lookup (js "data") fs) as [payload|] eqn:El;
    cbn [or_undefined]; [|discriminate].
  destruct (get payload (js "data")) as [d|e] eqn:Ed; [|discriminate].
  destruct (get payload (js "width")) as [w|e] eqn:Ew; [|discriminate].
  destruct (get payload (js "height")) as [h|e] eqn:Eh; [|discriminate].
  unfold update_field. rewrite (has_key_lookup _ _ _ El).
  exists payload, d, w, h.
  destruct payload; try discriminate Ed;
    cbn [delete strip3] in *; injection H as <- <-; auto 10.
Qed.


Lemma extend_nil (rel : jsstring) : extend [] rel = rel.
Proof. destruct rel; reflexivity. Qed.




(** ** The depth of [objectWalk] *)

(** The nesting of the calls of [objectWalk] on a walk through the tree is
    bounded by the height of the tree plus the length of the path: with room
    for more nested calls than that the walk ends, and ends as it does with
    any more room. *)
Theorem objectWalk_depth_bounded (o : value) (p : jsstring) (fuel : nat) :
  (height o + length p < fuel)%nat ->
  objectWalk_fuel fuel o p <> None
  /\ forall fuel', (fuel <= fuel')%nat ->
                   objectWalk_fuel fuel' o p = objectWalk_fuel fuel o p.
Proof.
  intros Hf. split.
  - rewrite objectWalk_fuel_ref by exact Hf. discriminate.
  - intros fuel' Hle. rewrite !objectWalk_fuel_ref by lia. reflexivity.
Qed.

Lemma objectWalk_depth_bounded_witness :
  objectWalk_fuel 13 gallery (js "items.1") <> None
  /\ forall fuel', (13 <= fuel')%nat ->
                   objectWalk_fuel fuel' gallery (js "items.1")
                   = objectWalk_fuel 13 gallery (js "items.1").
Proof.
  apply (objectWalk_depth_bounded gallery (js "items.1") 13).
  apply Nat.ltb_lt. vm_compute. reflexivity.
Defined.

(** ** The files [onPresave] writes *)

Lemma writeImages_manifest (P : platform) (outputFile : jsstring)
                           (images : list value) :
  Forall is_placeholder images ->
  forall ws images',
    writeImages P outputFile images = (ws, inl images') ->
    Forall2 (fun w image' =>
               exists path,
                 image' = stripped path
                 /\ getImageName P outputFile (VStr path) = inl (fst w))
            ws images'.
Proof.
  induction 1 as [|image images (d & w & h & p & ->) _ IH]; intros ws images';
    cbn [writeImages].
  - intros [= <- <-]. constructor.
  - change (get (placeholder d w h p) (js "path")) with (@inl _ exn (VStr p)).
    change (get (placeholder d w h p) (js "width")) with (@inl _ exn w).
    change (get (placeholder d w h p) (js "height")) with (@inl _ exn h).
    change (get (placeholder d w h p) (js "data")) with (@inl _ exn d).
    cbv beta iota.
    destruct (getImageName P outputFile (VStr p)) as [filename|e] eqn:En;
      [|discriminate].
    destruct (PNG_sync_write P _) as [buffer|e]; [|discriminate].
    change (delete (placeholder d w h p) (js "data"))
      with (@inl _ exn (VObj [(js "width", w); (js "height", h);
                              (js "path", VStr p)])).
    cbv beta iota.
    change (delete (VObj [(js "width", w); (js "height", h);
                          (js "path", VStr p)]) (js "width"))
      with (@inl _ exn (VObj [(js "height", h); (js "path", VStr p)])).
    cbv beta iota.
    change (delete (VObj [(js "height", h); (js "path", VStr p)])
                   (js "height"))
      with (@inl _ exn (stripped p)).
    cbv beta iota.
    destruct (writeImages P outputFile images) as [ws' [rest|e]];
      [|discriminate].
    intros [= <- <-]. constructor; [|apply IH; reflexivity].
    exists p. cbn [fst]. split; [reflexivity|exact En].
Qed.

Lemma presaveMap_writes (P : platform) (outputFile : jsstring)
                        (content : value) :
  fst (presaveMap P outputFile content) = []
  \/ exists bytes,
       fst (presaveMap P outputFile content) = [(tbinName P outputFile, bytes)].
Proof.
  unfold presaveMap.
  destruct (extractMap content) as [[map content1]|e]; [|left; reflexivity].
  destruct map; try (left; reflexivity). cbn [transcodeMap].
  destruct (transcode b) as [[bytes names]|e]; [|left; reflexivity].
  right. exists bytes. reflexivity.
Qed.

(** What a successful [onPresave] has written: at most the one [.tbin]
    file, then one PNG for each entry of the [extractedImages] it attaches,
    in the same order, under the name [getImageName] gives for the path of
    the entry. *)
Theorem onPresave_writes_one_png_per_entry (P : platform)
    (outputFile : jsstring) (data data' : Document) (ws : list file_write) :
  extractedImages data = None ->
  onPresave P outputFile data = (ws, inl data') ->
  exists tbin pngs entries,
    ws = tbin ++ pngs
    /\ (tbin = [] \/ exists bytes, tbin = [(tbinName P outputFile, bytes)])
    /\ Forall2 (fun w entry =>
                  exists path,
                    entry = stripped path
                    /\ getImageName P outputFile (VStr path) = inl (fst w))
               pngs entries
    /\ extractedImages data'
       = match entries with [] => None | _ => Some entries end.
Proof.
  intros Hnone Hrun. unfold onPresave in Hrun.
  pose proof (presaveMap_writes P outputFile (content data)) as Htb.
  destruct (presaveMap P outputFile (content data)) as [w1 [content2|e]];
    [|discriminate].
  destruct (extractImages content2 []) as [[found content3]|e] eqn:Ex;
    [|discriminate].
  destruct (writeImages P outputFile found) as [w2 [images'|e]] eqn:Ew;
    [|discriminate].
  injection Hrun as <- <-.
  apply extractImages_placeholders in Ex.
  exists w1, w2, images'. cbn [fst] in Htb. repeat split; auto.
  - exact (writeImages_manifest P outputFile found Ex _ _ Ew).
  - destruct images'; cbn; [exact Hnone|reflexivity].
Qed.

Lemma onPresave_writes_one_png_per_entry_witness :
  exists tbin pngs entries,
    [(js "out/map..png", two_pixels_file)] = tbin ++ pngs
    /\ (tbin = []
        \/ exists bytes,
             tbin = [(tbinName (sample_platform []) (js "out/map.yaml"),
                      bytes)])
    /\ Forall2 (fun w entry =>
                  exists path,
                    entry = stripped path
                    /\ getImageName (sample_platform []) (js "out/map.yaml")
                         (VStr path) = inl (fst w))
               pngs entries
    /\ extractedImages
         {| content := Texture2D [(js "format", VNum 0)];
            extractedImages := Some [stripped []];
            other := [] |}
       = match entries with [] => None | _ => Some entries end.
Proof.
  apply (onPresave_writes_one_png_per_entry (sample_platform [])
           (js "out/map.yaml") texture_document).
  - reflexivity.
  - vm_compute. reflexivity.
Defined.

(** ** Extraction, then reinjection *)

Lemma assignAll_app (pre post : list (jsstring * png)) (content : value) :
  assignAll (pre ++ post) content
  = content' <- assignAll pre content ;; assignAll post content'.
Proof.
  revert content. induction pre as [|[p g] pre IH]; intros content;
    cbn [app assignAll]; [reflexivity|].
  destruct (assignAt content p g); [apply IH|reflexivity].
Qed.

Lemma assignAt_tagged (o x : value) (p : jsstring) (g : png) :
  isTypeObject o = true ->
  get o (js "data") = inl x ->
  assignAt o p g
  = x' <- assignAt x p g ;; inl (update_child o (js "data") x').
Proof.
  intros Ht Hx. unfold assignAt. rewrite (objectWalk_ref_eq o), Ht, Hx.
  destruct (objectWalk_ref x p) as [r|e]; [|reflexivity]. cbn [target plug].
  destruct (set (target r) _ _) as [c1|e]; [|reflexivity].
  destruct (set c1 _ _) as [c2|e]; [|reflexivity].
  destruct (set c2 _ _) as [c3|e]; reflexivity.
Qed.

Lemma assignAt_plain (o x : value) (k rel : jsstring) (g : png) :
  isTypeObject o = false ->
  segment_ok k ->
  get o k = inl x ->
  assignAt o (extend k rel) g
  = x' <- assignAt x rel g ;; inl (update_child o k x').
Proof.
  intros Hnt [Hne Hdot] Hx. unfold assignAt.
  rewrite (objectWalk_ref_eq o), Hnt, extend_segment by exact Hne.
  assert (E : forall s, js_truthy (k ++ s) = true)
    by (destruct k; [congruence|reflexivity]).
  destruct rel as [|c r].
  - rewrite split_dot_segment by exact Hdot.
    rewrite <- (app_nil_r k) at 1. rewrite E. cbn [negb hd tl join_dot].
    rewrite Hx.
    destruct (objectWalk_ref x []) as [r|e]; [|reflexivity].
    cbn [target plug].
    destruct (set (target r) _ _) as [c1|e]; [|reflexivity].
    destruct (set c1 _ _) as [c2|e]; [|reflexivity].
    destruct (set c2 _ _) as [c3|e]; reflexivity.
  - rewrite split_dot_app by exact Hdot. rewrite E. cbn [negb hd tl].
    rewrite join_split_dot, Hx.
    destruct (objectWalk_ref x (c :: r)) as [r0|e]; [|reflexivity].
    cbn [target plug].
    destruct (set (target r0) _ _) as [c1|e]; [|reflexivity].
    destruct (set c1 _ _) as [c2|e]; [|reflexivity].
    destruct (set c2 _ _) as [c3|e]; reflexivity.
Qed.

(** The turns of the loop whose paths go through the child [k] of [o] act
    on that child alone. *)
Lemma assignAll_frame (good : value -> Prop) (k : jsstring)
                      (pre : jsstring -> jsstring) :
  (forall o v, good o ->
               good (update_child o k v)
               /\ get (update_child o k v) k = inl v
               /\ forall v', update_child (update_child o k v) k v'
                             = update_child o k v') ->
  (forall o x, good o -> get o k = inl x -> update_child o k x = o) ->
  (forall o x rel g, good o -> get o k = inl x ->
     assignAt o (pre rel) g
     = x' <- assignAt x rel g ;; inl (update_child o k x')) ->
  forall jobs o x,
    good o -> get o k = inl x ->
    assignAll (List.map (fun j => (pre (fst j), snd j)) jobs) o
    = x' <- assignAll jobs x ;; inl (update_child o k x').
Proof.
  intros Hgood Hsame Hstep.
  induction jobs as [|[rel g] jobs IH]; intros o x Ho Hx;
    cbn [assignAll List.map fst snd].
  - rewrite Hsame; auto.
  - rewrite (Hstep o x rel g Ho Hx).
    destruct (assignAt x rel g) as [x1|e]; [|reflexivity].
    destruct (Hgood o x1 Ho) as (Hg & Hget & Hupd).
    rewrite (IH (update_child o k x1) x1 Hg Hget).
    destruct (assignAll jobs x1) as [x2|e]; [|reflexivity].
    rewrite Hupd. reflexivity.
Qed.

Lemma put_lookup_same (k : jsstring) (x : value) (fs : fields_t) :
  lookup k fs = Some x -> put k x fs = fs.
Proof.
  induction fs as [|[k' v'] fs IH]; cbn [lookup put]; [discriminate|].
  destruct (jseqb k k') eqn:E.
  - apply jseqb_eq in E. subst k'. intros [= ->]. reflexivity.
  - intros Hl. rewrite IH by exact Hl. reflexivity.
Qed.

Lemma lookup_notin (k : jsstring) (fs : fields_t) :
  ~ In k (List.map fst fs) -> lookup k fs = None.
Proof.
  induction fs as [|[k' v'] fs IH]; cbn [lookup List.map fst In];
    [reflexivity|].
  intros Hn. destruct (jseqb k k') eqn:E.
  - apply jseqb_eq in E. subst k'. exfalso. apply Hn. left. reflexivity.
  - apply IH. intros Hin. apply Hn. right. exact Hin.
Qed.

Lemma put_app_absent (k : jsstring) (v x : value) (done rest : fields_t) :
  lookup k done = None ->
  put k v (done ++ (k, x) :: rest) = done ++ (k, v) :: rest.
Proof.
  induction done as [|[k' v'] done IH]; cbn [lookup put app].
  - rewrite jseqb_refl. reflexivity.
  - destruct (jseqb k k'); [discriminate|]. intros Hl.
    rewrite IH by exact Hl. reflexivity.
Qed.

(** Assignments through a field of an object. *)
Lemma assignAll_field (b : bool) (k : jsstring) (pre : jsstring -> jsstring) :
  (forall o x rel g, isTypeObject o = b -> get o k = inl x ->
     assignAt o (pre rel) g
     = x' <- assignAt x rel g ;; inl (update_child o k x')) ->
  forall jobs fs x,
    isTypeObject (VObj fs) = b ->
    lookup k fs = Some x ->
    assignAll (List.map (fun j => (pre (fst j), snd j)) jobs) (VObj fs)
    = x' <- assignAll jobs x ;; inl (VObj (put k x' fs)).
Proof.
  intros Hstep jobs fs x Hb Hl.
  pose (good := fun o => exists fs, o = VObj fs
                                    /\ isTypeObject o = b
                                    /\ has_key k fs = true).
  rewrite (assignAll_frame good k pre) with (x := x).
  - destruct (assignAll jobs x) as [x'|e]; [|reflexivity].
    cbn [update_child update_field]. rewrite (has_key_lookup _ _ _ Hl).
    reflexivity.
  - intros o v (fs0 & -> & Hb0 & Hk0).
    cbn [update_child update_field]. rewrite Hk0.
    unfold has_key in Hk0.
    destruct (lookup k fs0) as [v0|] eqn:El0; [|discriminate].
    split; [|split].
    + exists (put k v fs0). split; [reflexivity|]. split.
      * rewrite (isTypeObject_keys fs0); [exact Hb0|].
        eapply put_keys. exact El0.
      * unfold has_key. rewrite lookup_put_same. reflexivity.
    + cbn [get]. rewrite lookup_put_same. reflexivity.
    + intros v'. cbn [update_child update_field]. unfold has_key.
      rewrite lookup_put_same, put_put. reflexivity.
  - intros o y (fs0 & -> & Hb0 & Hk0). cbn [get update_child update_field].
    rewrite Hk0. unfold has_key in Hk0.
    destruct (lookup k fs0) as [v0|] eqn:El0; [|discriminate].
    cbn [or_undefined]. intros [= <-]. rewrite put_lookup_same by exact El0.
    reflexivity.
  - intros o y rel g (fs0 & -> & Hb0 & Hk0). apply Hstep. exact Hb0.
  - exists fs. split; [reflexivity|]. split; [exact Hb|].
    exact (has_key_lookup _ _ _ Hl).
  - cbn [get]. rewrite Hl. reflexivity.
Qed.

Lemma set_nth_length (l : list value) (n : nat) (v : value) :
  length (set_nth l n v) = length l.
Proof.
  revert n. induction l as [|x l IH]; intros [|n]; cbn; try reflexivity.
  rewrite IH. reflexivity.
Qed.

Lemma nth_error_set_nth (l : list value) (n : nat) (v : value) :
  (n < length l)%nat -> nth_error (set_nth l n v) n = Some v.
Proof.
  revert n. induction l as [|x l IH]; intros [|n]; cbn; try lia;
    [reflexivity|].
  intros Hn. apply IH. lia.
Qed.

Lemma set_nth_set_nth (l : list value) (n : nat) (v v' : value) :
  set_nth (set_nth l n v) n v' = set_nth l n v'.
Proof.
  revert n. induction l as [|x l IH]; intros [|n]; cbn; try reflexivity.
  rewrite IH. reflexivity.
Qed.

Lemma set_nth_same (l : list value) (n : nat) (x : value) :
  nth_error l n = Some x -> set_nth l n x = l.
Proof.
  revert n. induction l as [|y l IH]; intros [|n]; cbn; try discriminate.
  - intros [= ->]. reflexivity.
  - intros Hn. rewrite IH by exact Hn. reflexivity.
Qed.

Lemma set_nth_app (done rest : list value) (x v : value) :
  set_nth (done ++ x :: rest) (length done) v = done ++ v :: rest.
Proof.
  induction done as [|y done IH]; cbn; [reflexivity|]. rewrite IH.
  reflexivity.
Qed.

Lemma update_child_array (l : list value) (j : nat) (v : value) :
  (j < length l)%nat ->
  update_child (VArr l) (js_of_nat j) v = VArr (set_nth l j v).
Proof.
  intros Hj. cbn [update_child].
  rewrite js_of_nat_js_of_N, array_index_js_of_N.
  destruct (N.ltb_spec (N.of_nat j) (N.of_nat (length l))); [|lia].
  rewrite Nat2N.id. reflexivity.
Qed.

Lemma get_array_inv (l : list value) (j : nat) (x : value) :
  (j < length l)%nat ->
  get (VArr l) (js_of_nat j) = inl x -> nth_error l j = Some x.
Proof.
  intros Hj. destruct (nth_error l j) as [y|] eqn:En.
  - rewrite (get_array_element l j y En). congruence.
  - apply nth_error_None in En. lia.
Qed.

(** Assignments through an element of an array. *)
Lemma assignAll_element (j : nat) (jobs : list (jsstring * png))
                        (l : list value) (x : value) :
  nth_error l j = Some x ->
  assignAll (List.map (fun r => (extend (js_of_nat j) (fst r), snd r)) jobs)
            (VArr l)
  = x' <- assignAll jobs x ;; inl (VArr (set_nth l j x')).
Proof.
  intros Hn.
  assert (Hj : (j < length l)%nat) by (apply nth_error_Some; congruence).
  pose (good := fun o => exists l, o = VArr l /\ (j < length l)%nat).
  rewrite (assignAll_frame good (js_of_nat j) (extend (js_of_nat j)))
    with (x := x).
  - destruct (assignAll jobs x) as [x'|e]; [|reflexivity].
    rewrite update_child_array by exact Hj. reflexivity.
  - intros o v (l0 & -> & Hj0).
    rewrite update_child_array by exact Hj0.
    split; [|split].
    + exists (set_nth l0 j v). rewrite set_nth_length. auto.
    + apply get_array_element. apply nth_error_set_nth. exact Hj0.
    + intros v'.
      rewrite update_child_array by (rewrite set_nth_length; exact Hj0).
      rewrite set_nth_set_nth, update_child_array by exact Hj0.
      reflexivity.
  - intros o y (l0 & -> & Hj0) Hy.
    rewrite update_child_array by exact Hj0.
    rewrite set_nth_same; [reflexivity|].
    apply get_array_inv; assumption.
  - intros o y rel g (l0 & -> & Hj0) Hy.
    apply assignAt_plain; [reflexivity|apply segment_ok_js_of_nat|exact Hy].
  - exists l. auto.
  - apply get_array_element. exact Hn.
Qed.

Lemma extractFields_keys
    (rec : value -> jsstring -> result (list value * value))
    (visit : jsstring -> option jsstring) (fs : fields_t) :
  forall images fs',
    extractFields rec visit fs = inl (images, fs') ->
    List.map fst fs' = List.map fst fs.
Proof.
  induction fs as [|[k x] fs IH]; intros images fs'; cbn [extractFields].
  - intros [= <- <-]. reflexivity.
  - destruct (match visit k with Some p => rec x p | None => inl ([], x) end)
      as [[imgs x']|e]; [|discriminate].
    destruct (extractFields rec visit fs) as [[imgs' fs'']|e] eqn:El;
      [|discriminate].
    intros [= <- <-]. cbn [List.map fst]. rewrite (IH _ _ eq_refl).
    reflexivity.
Qed.

Lemma job_image_extend (q k : jsstring) (jobs : list (jsstring * png)) :
  k <> [] ->
  List.map (job_image q)
           (List.map (fun r => (extend k (fst r), snd r)) jobs)
  = List.map (job_image (dotted q ++ k)) jobs.
Proof.
  intros Hk. rewrite map_map. apply map_ext. intros [rel g].
  unfold job_image. cbn [fst snd]. rewrite extend_assoc by exact Hk.
  reflexivity.
Qed.

Lemma extractElems_assignAll (q : jsstring) (l : list value) :
  Forall (fun x => forall p images x',
            extractImages x p = inl (images, x') ->
            exists jobs,
              images = List.map (job_image p) jobs
              /\ assignAll jobs x' = inl (restored x)) l ->
  forall i images l',
    extractElems extractImages (dotted q) l i = inl (images, l') ->
    exists jobs,
      images = List.map (job_image q) jobs
      /\ forall done,
           length done = i ->
           assignAll jobs (VArr (done ++ l'))
           = inl (VArr (done ++ List.map restored l)).
Proof.
  induction 1 as [|x l Hx _ IH]; intros i images l'; cbn [extractElems].
  - intros [= <- <-]. exists []. split; [reflexivity|]. intros done _.
    reflexivity.
  - destruct (extractImages x _) as [[imgs x']|e] eqn:Ex; [|discriminate].
    destruct (extractElems extractImages (dotted q) l (S i))
      as [[imgs' l'']|e] eqn:El; [|discriminate].
    intros [= <- <-].
    destruct (Hx _ _ _ Ex) as (jobs1 & -> & Hrun1).
    destruct (IH _ _ _ El) as (jobs2 & -> & Hrun2).
    exists (List.map (fun r => (extend (js_of_nat i) (fst r), snd r)) jobs1
            ++ jobs2).
    split.
    + rewrite map_app, job_image_extend by apply segment_ok_js_of_nat.
      reflexivity.
    + intros done Hlen. rewrite assignAll_app.
      rewrite (assignAll_element i jobs1 (done ++ x' :: l'') x').
      * rewrite Hrun1. subst i. rewrite set_nth_app.
        cbn [List.map].
        specialize (Hrun2 (done ++ [restored x])).
        rewrite <- !app_assoc in Hrun2. cbn [app] in Hrun2.
        apply Hrun2. rewrite length_app. cbn [length]. lia.
      * subst i. rewrite nth_error_app2 by lia.
        rewrite Nat.sub_diag. reflexivity.
Qed.

Lemma extractFields_assignAll (q : jsstring) (fs : fields_t) :
  Forall (fun kv => forall p images x',
            extractImages (snd kv) p = inl (images, x') ->
            exists jobs,
              images = List.map (job_image p) jobs
              /\ assignAll jobs x' = inl (restored (snd kv))) fs ->
  Forall (fun kv => segment_ok (fst kv)) fs ->
  forall images fs',
    extractFields extractImages (fun key => Some (dotted q ++ key)) fs
    = inl (images, fs') ->
    exists jobs,
      images = List.map (job_image q) jobs
      /\ forall done,
           NoDup (List.map fst (done ++ fs)) ->
           isTypeObject (VObj (done ++ fs)) = false ->
           assignAll jobs (VObj (done ++ fs'))
           = inl (VObj (done
                        ++ List.map (fun kv => (fst kv, restored (snd kv)))
                                    fs)).
Proof.
  induction 1 as [|[k x] fs Hx _ IH]; intros Hseg images fs';
    cbn [extractFields].
  - intros [= <- <-]. exists []. split; [reflexivity|]. intros done _ _.
    reflexivity.
  - destruct (extractImages x _) as [[imgs x']|e] eqn:Ex; [|discriminate].
    destruct (extractFields extractImages _ fs) as [[imgs' fs'']|e] eqn:El;
      [|discriminate].
    intros [= <- <-].
    inversion Hseg as [|? ? Hk Hseg']; subst. cbn [fst snd] in *.
    destruct (Hx _ _ _ Ex) as (jobs1 & -> & Hrun1).
    destruct (IH Hseg' _ _ eq_refl) as (jobs2 & -> & Hrun2).
    pose proof (extractFields_keys _ _ _ _ _ El) as Hkeys.
    exists (List.map (fun r => (extend k (fst r), snd r)) jobs1 ++ jobs2).
    split.
    + rewrite map_app, job_image_extend by apply Hk. reflexivity.
    + intros done Hnd Hnt. rewrite assignAll_app.
      assert (Hdone : lookup k done = None).
      { apply lookup_notin. rewrite map_app in Hnd. cbn [List.map fst] in Hnd.
        apply NoDup_remove_2 in Hnd. intros Hin. apply Hnd.
        apply in_or_app. left. exact Hin. }
      assert (Hkeys1 : List.map fst (done ++ (k, x') :: fs'')
                       = List.map fst (done ++ (k, x) :: fs)).
      { rewrite !map_app. cbn [List.map fst]. rewrite Hkeys. reflexivity. }
      rewrite (assignAll_field false k (extend k)) with (x := x').
      * rewrite Hrun1. rewrite put_app_absent by exact Hdone.
        cbn [List.map fst snd].
        specialize (Hrun2 (done ++ [(k, restored x)])).
        rewrite <- !app_assoc in Hrun2. cbn [app] in Hrun2.
        apply Hrun2.
        -- rewrite !map_app in *. cbn [List.map fst] in *. exact Hnd.
        -- rewrite <- Hnt. apply isTypeObject_keys.
           rewrite !map_app. reflexivity.
      * intros o y rel g Ho Hy. apply assignAt_plain; assumption.
      * rewrite <- Hnt. apply isTypeObject_keys. exact Hkeys1.
      * rewrite lookup_app, Hdone. cbn [lookup]. rewrite jseqb_refl.
        reflexivity.
Qed.

Lemma assignAll_tagged (jobs : list (jsstring * png)) (fs : fields_t)
                       (x : value) :
  isTypeObject (VObj fs) = true ->
  lookup (js "data") fs = Some x ->
  assignAll jobs (VObj fs)
  = x' <- assignAll jobs x ;; inl (VObj (put (js "data") x' fs)).
Proof.
  intros Ht Hl.
  rewrite <- (assignAll_field true (js "data") (fun rel => rel)
                (fun o y rel g Ho Hy => assignAt_tagged o y rel g Ho Hy)
                jobs fs x Ht Hl).
  f_equal. symmetry. etransitivity; [|apply map_id].
  apply map_ext. intros [rel g]. reflexivity.
Qed.

(** Every field of a texture payload reads after the deletions and the
    assignments as it did before. *)
Lemma get_reappended (payload : value) (k : jsstring) :
  get (reappended payload) k = get payload k.
Proof.
  destruct payload as [| | | | | | |fs]; try reflexivity.
  cbn [reappended get]. f_equal. rewrite lookup_app, lookup_strip3.
  cbn [lookup].
  destruct (jseqb k (js "data")) eqn:Ed.
  { apply jseqb_eq in Ed. subst k. reflexivity. }
  destruct (jseqb k (js "width")) eqn:Ew.
  { apply jseqb_eq in Ew. subst k. reflexivity. }
  destruct (jseqb k (js "height")) eqn:Eh.
  { apply jseqb_eq in Eh. subst k. reflexivity. }
  cbn [orb]. destruct (lookup k fs); reflexivity.
Qed.

Lemma extractImages_assignAll (t : value) :
  restorable t ->
  forall q images t',
    extractImages t q = inl (images, t') ->
    exists jobs,
      images = List.map (job_image q) jobs
      /\ assignAll jobs t' = inl (restored t).
Proof.
  induction t as [v Hv|l IH|fs IH] using value_ind'; intros Hr q images t'.
  - destruct v; try discriminate Hv; intros [= <- <-]; exists [];
      split; reflexivity.
  - assert (Hl : Forall restorable l).
    { inversion Hr; [discriminate|assumption]. }
    assert (Hrec : Forall (fun x => forall p images x',
                             extractImages x p = inl (images, x') ->
                             exists jobs,
                               images = List.map (job_image p) jobs
                               /\ assignAll jobs x' = inl (restored x)) l).
    { rewrite Forall_forall in *. intros x Hin. apply IH; auto. }
    cbn [extractImages].
    destruct (extractElems extractImages (dotted q) l 0)
      as [[imgs l']|e] eqn:E; [|discriminate].
    intros [= <- <-].
    destruct (extractElems_assignAll q l Hrec _ _ _ E) as (jobs & -> & Hrun).
    exists jobs. split; [reflexivity|]. exact (Hrun [] eq_refl).
  - cbn [extractImages]. destruct (isTypeObject (VObj fs)) eqn:Ht.
    + destruct (loose_eq_string _ _) as [[|]|e] eqn:Etex; [| |discriminate].
      * intros Hrun.
        assert (Hpf : exists pf, lookup (js "data") fs = Some (VObj pf)).
        { inversion Hr; subst; try discriminate; try congruence. eauto. }
        destruct Hpf as [pf Hl].
        destruct (extractTexture_returns _ _ _ _ Hrun)
          as (payload & d & w & h & Hl' & Hd & Hw & Hh & -> & ->).
        rewrite Hl in Hl'. injection Hl' as <-.
        cbn [get] in Hd, Hw, Hh.
        injection Hd as <-. injection Hw as <-. injection Hh as <-.
        exists [([], {| png_width := or_undefined (lookup (js "width") pf);
                        png_height := or_undefined (lookup (js "height") pf);
                        png_data := or_undefined (lookup (js "data") pf) |})].
        split; [reflexivity|]. cbn [assignAll].
        assert (Ht' : isTypeObject
                        (VObj (put (js "data") (strip3 (VObj pf)) fs)) = true).
        { rewrite (isTypeObject_keys fs); [exact Ht|].
          eapply put_keys. exact Hl. }
        rewrite (assignAt_tagged _ (strip3 (VObj pf)) _ _ Ht')
          by (cbn [get]; rewrite lookup_put_same; reflexivity).
        unfold assignAt.
        rewrite objectWalk_ref_eq, isTypeObject_strip3.
        cbn [js_truthy negb target plug strip3 png_data png_width png_height].
        pose proof (set_three
                      (remove (js "height")
                         (remove (js "width") (remove (js "data") pf)))
                      (or_undefined (lookup (js "data") pf))
                      (or_undefined (lookup (js "width") pf))
                      (or_undefined (lookup (js "height") pf))) as Hs.
        rewrite !lookup_strip3 in Hs. specialize (Hs eq_refl eq_refl eq_refl).
        destruct (set (VObj _) (js "data") _) as [c1|e]; [|discriminate].
        destruct (set c1 (js "width") _) as [c2|e]; [|discriminate].
        destruct (set c2 (js "height") _) as [c3|e]; [|discriminate].
        injection Hs as ->.
        cbn [update_child update_field]. unfold has_key.
        rewrite lookup_put_same, put_put.
        cbn [restored]. rewrite Ht. unfold isTexture. rewrite Etex, Hl.
        reflexivity.
      * assert (Hc : Forall (fun kv => restorable (snd kv)) fs).
        { inversion Hr; subst; try discriminate; try congruence. }
        assert (Hres : forall x',
                   lookup (js "data") fs = Some x' ->
                   restored (VObj fs)
                   = VObj (put (js "data") (restored x') fs)).
        { intros x' Hx'. cbn [restored]. rewrite Ht. unfold isTexture.
          rewrite Etex. f_equal.
          destruct (tagged_shape fs Ht) as (a & x & [-> | ->]);
            cbn [lookup] in Hx'; cbn [List.map put fst snd];
            change (jseqb (js "type") (js "data")) with false in *;
            change (jseqb (js "data") (js "type")) with false in *;
            change (jseqb (js "data") (js "data")) with true in *;
            cbv iota in *; injection Hx' as <-; reflexivity. }
        destruct (tagged_shape fs Ht) as (a & x & [-> | ->]).
        -- cbn [extractFields].
           change (jseqb (js "type") (js "data")) with false.
           change (jseqb (js "data") (js "data")) with true. cbv iota.
           destruct (extractImages x q) as [[imgs x']|e] eqn:Ex;
             [|discriminate].
           intros [= <- <-]. cbn [app]. rewrite app_nil_r.
           inversion IH as [|? ? _ IH']; subst.
           inversion IH' as [|? ? IHx _]; subst.
           inversion Hc as [|? ? _ Hc']; subst.
           inversion Hc' as [|? ? Hx _]; subst.
           destruct (IHx Hx _ _ _ Ex) as (jobs & -> & Hrun).
           exists jobs. split; [reflexivity|].
           rewrite (assignAll_tagged jobs _ x') by reflexivity.
           rewrite Hrun, (Hres x) by reflexivity. reflexivity.
        -- cbn [extractFields].
           change (jseqb (js "type") (js "data")) with false.
           change (jseqb (js "data") (js "data")) with true. cbv iota.
           destruct (extractImages x q) as [[imgs x']|e] eqn:Ex;
             [|discriminate].
           intros [= <- <-]. cbn [app]. rewrite app_nil_r.
           inversion IH as [|? ? IHx _]; subst.
           inversion Hc as [|? ? Hx _]; subst.
           destruct (IHx Hx _ _ _ Ex) as (jobs & -> & Hrun).
           exists jobs. split; [reflexivity|].
           rewrite (assignAll_tagged jobs _ x') by reflexivity.
           rewrite Hrun, (Hres x) by reflexivity. reflexivity.
    + assert (Hp : NoDup (List.map fst fs)
                   /\ Forall (fun kv => segment_ok (fst kv)) fs
                   /\ Forall (fun kv => restorable (snd kv)) fs).
      { inversion Hr; subst; try discriminate; try congruence. auto. }
      destruct Hp as (Hnd & Hseg & Hc).
      assert (Hrec : Forall (fun kv => forall p images x',
                               extractImages (snd kv) p = inl (images, x') ->
                               exists jobs,
                                 images = List.map (job_image p) jobs
                                 /\ assignAll jobs x'
                                    = inl (restored (snd kv))) fs).
      { rewrite Forall_forall in *. intros kv Hin. apply IH; auto. }
      destruct (extractFields extractImages _ fs) as [[imgs fs']|e] eqn:E;
        [|discriminate].
      intros [= <- <-].
      destruct (extractFields_assignAll q fs Hrec Hseg _ _ E)
        as (jobs & -> & Hrun).
      exists jobs. split; [reflexivity|].
      specialize (Hrun [] Hnd Ht). cbn [app] in Hrun. rewrite Hrun.
      cbn [restored]. rewrite Ht. reflexivity.
Qed.

(** A turn of the loop that assigns within the tree has read no inherited
    member. *)
Lemma assignAt_stays (inh : value -> jsstring -> bool) (content : value)
                     (p : jsstring) (g : png) (c : value) :
  assignAt content p g = inl c -> leaves_tree inh content p = false.
Proof.
  unfold assignAt. intros Hrun.
  destruct (objectWalk_ref content p) as [r|e] eqn:Er; [|discriminate].
  apply (resolved_stays inh _ _ _ r Er). intros Hu. rewrite Hu in Hrun.
  discriminate.
Qed.

Lemma reinjectAll_assignAll (P : platform) (inputFile : jsstring)
                            (jobs : list (jsstring * png)) :
  Forall (sidecar_holds P inputFile) (List.map (job_image []) jobs) ->
  forall content c,
    assignAll jobs content = inl c ->
    reinjectAll P inputFile (List.map strip3 (List.map (job_image []) jobs))
                content
    = inl c.
Proof.
  induction jobs as [|[rel [gw gh gd]] jobs IH]; intros Hs content c;
    cbn [List.map reinjectAll assignAll]; [auto|].
  apply Forall_cons_iff in Hs.
  destruct Hs
    as [(d & w & h & p & name & file & Himg & Hname & Hfile & Hpng) Hs'].
  unfold job_image in Himg. cbn [fst snd png_data png_width png_height] in Himg.
  rewrite extend_nil in Himg. injection Himg as -> -> -> ->.
  destruct (assignAt content p _) as [content'|e] eqn:Ea; [|discriminate].
  intros Hrest.
  rewrite (reinject_run P inputFile _ p name file
             {| png_width := w; png_height := h; png_data := d |} content);
    try assumption.
  - fold (assignAt content p
            {| png_width := w; png_height := h; png_data := d |}).
    rewrite Ea. apply IH; assumption.
  - unfold job_image. cbn [fst snd]. rewrite extend_nil. reflexivity.
  - eapply assignAt_stays. exact Ea.
Qed.

(** Extraction, then reinjection.  On a restorable tree, [onPostload] on
    the tree [extractImages] leaves, with the entries left of the
    placeholders it returned and sidecars that decode to what the
    placeholders held, returns the tree restored: each texture payload has
    its three fields again, last, and reads on every key as it did
    ([get_reappended]). *)
Theorem onPostload_restores_extracted_tree (P : platform)
    (inputFile : jsstring) (t t' : value) (images : list value)
    (others : fields_t) :
  restorable t ->
  extractImages t [] = inl (images, t') ->
  Forall (sidecar_holds P inputFile) images ->
  onPostload P inputFile
    {| content := t';
       extractedImages := Some (List.map strip3 images);
       other := others |}
  = inl {| content := restored t;
           extractedImages := Some (List.map strip3 images);
           other := others |}.
Proof.
  intros Hr Hrun Hs.
  destruct (extractImages_assignAll t Hr [] images t' Hrun)
    as (jobs & -> & Hall).
  unfold onPostload. cbn [extractedImages content].
  rewrite (reinjectAll_assignAll P inputFile jobs Hs t' _ Hall). reflexivity.
Qed.

Lemma gallery_restorable : restorable gallery.
Proof.
  apply restorable_tagged; [reflexivity|reflexivity|].
  constructor; [apply restorable_leaf; reflexivity|].
  constructor; [|constructor]. cbn [snd].
  apply restorable_plain; [reflexivity| | |].
  - cbn. constructor.
    + intros [E|[]]. vm_compute in E. discriminate.
    + constructor; [intros []|constructor].
  - repeat constructor; cbn; try discriminate;
      intros Hin; vm_compute in Hin; intuition discriminate.
  - constructor; [apply restorable_leaf; reflexivity|].
    constructor; [|constructor]. cbn [snd].
    apply restorable_array.
    constructor; [apply restorable_leaf; reflexivity|].
    constructor; [|constructor].
    apply (restorable_texture _ pixel_fields); reflexivity.
Qed.

Lemma onPostload_restores_extracted_tree_witness :
  onPostload (sample_platform [(js "out/map.items.1.png", two_pixels_file)])
    (js "out/map.yaml")
    {| content :=
         tagged (js "Gallery")
           (VObj [(js "title", VStr (js "two pixels"));
                  (js "items", VArr [VNum 7; Texture2D []])]);
       extractedImages := Some [stripped (js "items.1")];
       other := [] |}
  = inl {| content := gallery;
           extractedImages := Some [stripped (js "items.1")];
           other := [] |}.
Proof.
  apply (onPostload_restores_extracted_tree
           (sample_platform [(js "out/map.items.1.png", two_pixels_file)])
           (js "out/map.yaml") gallery
           (tagged (js "Gallery")
              (VObj [(js "title", VStr (js "two pixels"));
                     (js "items", VArr [VNum 7; Texture2D []])]))
           [placeholder (VBuf two_pixels) (VNum 2) (VNum 1) (js "items.1")]
           []).
  - exact gallery_restorable.
  - vm_compute. reflexivity.
  - constructor; [|constructor].
    exists (VBuf two_pixels), (VNum 2), (VNum 1), (js "items.1"),
           (js "out/map.items.1.png"), two_pixels_file.
    repeat split; vm_compute; reflexivity.
Defined.

(** ** [packXnb] writes its output or nothing *)

(** Whatever the codecs and the platform do, [packXnb] has written the one
    output file when it returns and no file at all when it throws: the write
    is its last statement, and [onPostload] only reads. *)
Theorem packXnb_writes_output_or_nothing (K : packers) (P : platform)
    (inputFile outputFile : jsstring) (w : list file_write) :
  match snd (packXnb K P inputFile outputFile w) with
  | inl _ =>
      exists xnb,
        fst (packXnb K P inputFile outputFile w) = w ++ [(outputFile, xnb)]
  | inr _ => fst (packXnb K P inputFile outputFile w) = w
  end.
Proof.
  unfold packXnb.
  destruct (fs_readFileSync P inputFile) as [buffer|e]; [|reflexivity].
  cbv zeta.
  destruct (typeyaml_parse K (Buffer_toString buffer)) as [data|e];
    [|reflexivity].
  destruct (onPostload P inputFile data) as [data'|e]; [|reflexivity].
  destruct (ObjectToXnb K data') as [xnb|e]; [|reflexivity].
  cbn [fst snd]. exists xnb. reflexivity.
Qed.
